(** * EmailAutomation: the application-email generator

    A shallow embedding of [email_generator.py]: the text post-processing
    that removes a model-written sign-off and appends the fixed closing
    block, the bounded retry loop around the HTTP call, and the command
    line entry point.

    A Python [str] is a sequence of Unicode code points; it is modelled
    as a list of code points.  [str.lower] depends on Unicode's case tables,
    which are not part of the repository: the development takes it as a
    parameter, and supplies two instances for concrete runs, one for
    Latin-1 and one that also knows U+0130, whose lower-case form is two
    code points. *)

From Stdlib Require Import String Ascii.
From Stdlib Require Import List ZArith NArith Lia Bool.
Import ListNotations.

Local Open Scope Z_scope.

(** ** Strings *)

Module Str.

Abbreviation codepoint := N (only parsing).
Abbreviation str := (list N).

(** An ASCII string literal, code point by code point. *)
Definition lit (s : string) : str := map N_of_ascii (list_ascii_of_string s).

Definition nl : str := [10%N].

(** [len(s)] *)
Definition len (s : str) : Z := Z.of_nat (length s).

(** [s.startswith(sub)] *)
Fixpoint startswith (sub s : str) : bool :=
  match sub, s with
  | [], _ => true
  | _ :: _, [] => false
  | a :: sub', b :: s' => N.eqb a b && startswith sub' s'
  end.

(** [sub in s] *)
Fixpoint contains (sub s : str) : bool :=
  startswith sub s ||
  match s with
  | [] => false
  | _ :: s' => contains sub s'
  end.

(** The index [s.find(sub)] when it is not -1. *)
Fixpoint find_nat (sub s : str) : option nat :=
  if startswith sub s then Some O
  else match s with
       | [] => None
       | _ :: s' => option_map S (find_nat sub s')
       end.

(** The index [s.rfind(sub)] when it is not -1. *)
Fixpoint rfind_nat (sub s : str) : option nat :=
  match s with
  | [] => if startswith sub [] then Some O else None
  | _ :: s' =>
      match rfind_nat sub s' with
      | Some j => Some (S j)
      | None => if startswith sub s then Some O else None
      end
  end.

(** [s.rfind(sub)]: the highest index where [sub] starts, or -1. *)
Definition rfind (s sub : str) : Z :=
  match rfind_nat sub s with
  | Some j => Z.of_nat j
  | None => -1
  end.

(** The position a slice bound [i] denotes in a string of length [n]:
    a negative bound counts from the end, and both are clamped. *)
Definition slice_index (n i : Z) : nat :=
  Z.to_nat (if i <? 0 then Z.max 0 (n + i) else Z.min i n).

(** [s[:i]] *)
Definition slice_to (s : str) (i : Z) : str := firstn (slice_index (len s) i) s.

(** [s[i:]] *)
Definition slice_from (s : str) (i : Z) : str := skipn (slice_index (len s) i) s.

(** [c.isspace()]: the code points [str.strip()] removes. *)
Definition isspace (c : codepoint) : bool :=
  ((9 <=? c) && (c <=? 13) || (28 <=? c) && (c <=? 32) ||
   (c =? 133) || (c =? 160) || (c =? 5760) ||
   (8192 <=? c) && (c <=? 8202) || (c =? 8232) || (c =? 8233) ||
   (c =? 8239) || (c =? 8287) || (c =? 12288))%N.

Fixpoint lstrip (s : str) : str :=
  match s with
  | [] => []
  | c :: s' => if isspace c then lstrip s' else s
  end.

Definition rstrip (s : str) : str := rev (lstrip (rev s)).

(** [s.strip()] *)
Definition strip (s : str) : str := rstrip (lstrip s).

(** [s.split(sep)] for a non-empty [sep] (an empty separator raises
    ValueError in Python; the program only splits on constants).  The scan
    goes left to right over non-overlapping occurrences: [skip] counts the
    characters of a matched separator still to be passed over and [cur]
    holds the current piece, reversed. *)
Fixpoint split_go (sep : str) (skip : nat) (cur s : str) : list str :=
  match s with
  | [] => [rev cur]
  | c :: s' =>
      match skip with
      | S k => split_go sep k cur s'
      | O =>
          if startswith sep s
          then rev cur :: split_go sep (length sep - 1) [] s'
          else split_go sep O (c :: cur) s'
      end
  end.

Definition split (s sep : str) : list str := split_go sep O [] s.

(** [s.rsplit(sep, 1)]: at most one split, at the last occurrence. *)
Definition rsplit1 (s sep : str) : list str :=
  match rfind_nat sep s with
  | Some j => [firstn j s; skipn (j + length sep) s]
  | None => [s]
  end.

(** [str.lower()] on code points below U+0100: the ASCII capitals and the
    Latin-1 capitals (U+00C0..U+00DE without the multiplication sign) move
    up by 32. *)
Definition lower_cp (c : codepoint) : codepoint :=
  (if (65 <=? c) && (c <=? 90) then c + 32
   else if (192 <=? c) && (c <=? 222) && negb (c =? 215) then c + 32
   else c)%N.

Definition lower_latin1 (s : str) : str := map lower_cp s.

End Str.

Import Str.

(** ** Configuration (lines 9-25) *)

Definition MODEL_NAME : str := lit "llama-3.3-70b-versatile".

Definition MANDATORY_CLOSING_LINE : str :=
  lit "I am available to join immediately, as I have completed all my academic coursework.".

Definition CLOSING_BLOCK : str :=
  nl ++ nl ++
  MANDATORY_CLOSING_LINE ++ nl ++ nl ++
  lit "Best regards," ++ nl ++
  lit "Abhinav Prasad" ++ nl ++
  lit "Email: abhinavprasad2004ap@gmail.com" ++ nl ++
  lit "Phone: 8989625663" ++ nl ++
  lit "LinkedIn: https://www.linkedin.com/in/abhinav-prasad-0a894b251/" ++ nl ++
  lit "GitHub: https://github.com/Abhii242004".

(** ** Post-processing of the model's text (lines 96-129) *)

Section PostProcessing.

(** [str.lower] *)
Variable lower : str -> str.

Definition stop_phrase : str := lit "---END-OF-BODY---".

Definition common_closings : list str :=
  [ lit "Best regards,"; lit "Sincerely,"; lit "Thank you,";
    lit "I look forward to hearing from you." ].

(** Lines 99-101: cut at the stop phrase when the model wrote it. *)
Definition primary_cleanup (email_content : str) : str :=
  if contains stop_phrase email_content
  then strip (nth 0 (split email_content stop_phrase) [])
  else email_content.

(** Lines 109-114: the loop over the closing phrases, with its [break]. *)
Fixpoint closing_loop (closings : list str) (email_content : str) : str :=
  match closings with
  | [] => email_content
  | closing :: rest =>
      let idx := rfind (lower email_content) (lower closing) in
      if negb (idx =? -1) && (len email_content - idx <? 200)
      then strip (slice_to email_content idx)
      else closing_loop rest email_content
  end.

Definition secondary_cleanup (email_content : str) : str :=
  closing_loop common_closings email_content.

(** Lines 118-123: drop a trailing block that looks like contact details. *)
Definition contact_cleanup (email_content : str) : str :=
  if contains (lit "@") (slice_from email_content (-100))
  then
    let parts := rsplit1 email_content (nl ++ nl) in
    if (1 <? length parts)%nat &&
       (contains (lit "@") (nth 1 parts []) || contains (lit "+") (nth 1 parts []))
    then strip (nth 0 parts [])
    else email_content
  else email_content.

(** The text the closing block is appended to. *)
Definition sanitized_body (email_content : str) : str :=
  contact_cleanup (secondary_cleanup (primary_cleanup email_content)).

(** Lines 126-129: the separator, then the closing block. *)
Definition post_process (email_content : str) : str :=
  (sanitized_body email_content ++ nl ++ nl) ++ CLOSING_BLOCK.

End PostProcessing.

(** ** The request (lines 42-68) *)

Record ChatPayload := {
  model : str;
  messages : list (str * str);   (* role, content *)
  temperature : Z
}.

Definition system_prompt : str :=
  lit "You are a skilled applicant, Abhinav Prasad, applying for the target job. Your task is to write a highly tailored, " ++
  lit "professional application email to the hiring manager. The output must start with the Subject line, followed by the email body." ++ nl ++ nl ++
  lit "Use the following rules:" ++ nl ++
  lit "1. The email must be written **from the perspective of Abhinav Prasad**." ++ nl ++
  lit "2. The email must be concise (max 4-5 short paragraphs)." ++ nl ++
  lit "3. **Critically analyze** the job requirements and **directly correlate** Abhinav's skills, projects, and work experience from the resume to the job requirements. Mention specific projects or achievements where possible." ++ nl ++
  lit "4. Include a compelling subject line at the very top, clearly separated (e.g., 'Subject: Inquiry about X Role')." ++ nl ++
  lit "5. **CRITICAL STOP:** End the email body immediately after the final analytical paragraph with the unique phrase: `---END-OF-BODY---`." ++ nl ++
  lit "6. DO NOT include any closing line (like 'Sincerely', 'Best regards') or contact block, as these will be appended by the system." ++ nl ++
  lit "7. Do not provide a preamble or post-amble, only the email content.".

Definition user_query (job_description resume_data : str) : str :=
  lit "Generate the application email. Target Job Description:" ++ nl ++ nl ++
  lit "---" ++ nl ++ job_description ++ nl ++ lit "---" ++ nl ++ nl ++
  lit "Candidate Resume:" ++ nl ++ nl ++
  lit "---" ++ nl ++ resume_data ++ nl ++ lit "---".

Definition payload (job_description resume_data : str) : ChatPayload :=
  {| model := MODEL_NAME;
     messages := [ (lit "system", system_prompt);
                   (lit "user", user_query job_description resume_data) ];
     temperature := 0 |}.

(** ** Responses and exceptions *)

(** A parsed JSON value, as [response.json()] returns it. *)
#[warnings="-register-all"]
Inductive json :=
| JNull
| JBool (b : bool)
| JNum (n : Z)
| JStr (s : str)
| JArr (items : list json)
| JObj (fields : list (str * json)).

(** The exceptions the body of the [try] can raise.  All of them derive
    from [Exception]; [HTTPError] carries the status of its response. *)
Inductive exn :=
| HTTPError (status_code : Z)
| ConnectionError
| JSONDecodeError
| AttributeError
| IndexError
| KeyError
| TypeError
| ValueError.

Inductive res (A : Type) :=
| Ok (a : A)
| Raise (e : exn).

Arguments Ok {A} a.
Arguments Raise {A} e.

Definition bind {A B} (m : res A) (k : A -> res B) : res B :=
  match m with
  | Ok a => k a
  | Raise e => Raise e
  end.

Notation "x <- m ;; k" := (bind m (fun x => k))
  (at level 61, m at next level, right associativity).

(** What one [requests.post] meets: no response at all (the call raises),
    or a response with a status and a body that may or may not be JSON. *)
Inductive exchange :=
| NoResponse
| Response (status_code : Z) (body : option json).

(** [response.raise_for_status()] *)
Definition raise_for_status (status_code : Z) : res unit :=
  if (400 <=? status_code) && (status_code <? 600)
  then Raise (HTTPError status_code)
  else Ok tt.

(** [response.json()] *)
Definition response_json (body : option json) : res json :=
  match body with
  | Some v => Ok v
  | None => Raise JSONDecodeError
  end.

Fixpoint str_eqb (a b : str) : bool :=
  match a, b with
  | [], [] => true
  | x :: a', y :: b' => N.eqb x y && str_eqb a' b'
  | _, _ => false
  end.

Fixpoint lookup (key : str) (fields : list (str * json)) : option json :=
  match fields with
  | [] => None
  | (k, v) :: rest => if str_eqb k key then Some v else lookup key rest
  end.

(** [o.get(key, default)]: only a dict has the method.  [fields] lists the
    entries of the parsed dict, one per key. *)
Definition get (o : json) (key : str) (default : json) : res json :=
  match o with
  | JObj fields =>
      Ok (match lookup key fields with Some v => v | None => default end)
  | _ => Raise AttributeError
  end.

(** [o[0]] *)
Definition item0 (o : json) : res json :=
  match o with
  | JArr (x :: _) => Ok x
  | JArr [] => Raise IndexError
  | JStr (c :: _) => Ok (JStr [c])
  | JStr [] => Raise IndexError
  | JObj _ => Raise KeyError
  | JNull | JBool _ | JNum _ => Raise TypeError
  end.

(** Python's truth value of a parsed JSON value (a float is false at zero
    like an integer). *)
Definition truthy (o : json) : bool :=
  match o with
  | JNull => false
  | JBool b => b
  | JNum n => negb (n =? 0)
  | JStr s => negb (str_eqb s [])
  | JArr items => match items with [] => false | _ => true end
  | JObj fields => match fields with [] => false | _ => true end
  end.

(** ** The world the program runs in *)

(** What the program has done so far: the number of POST requests sent,
    the arguments of its [time.sleep] calls and the lines it printed, both
    oldest first. *)
Record world := {
  posts : nat;
  sleeps : list Z;
  stdout : list str
}.

Definition start : world := {| posts := O; sleeps := []; stdout := [] |}.

Definition print (line : str) (w : world) : world :=
  {| posts := posts w; sleeps := sleeps w; stdout := stdout w ++ [line] |}.

Definition sleep (secs : Z) (w : world) : world :=
  {| posts := posts w; sleeps := sleeps w ++ [secs]; stdout := stdout w |}.

Definition sent (w : world) : world :=
  {| posts := S (posts w); sleeps := sleeps w; stdout := stdout w |}.

(** The remote end: what the n-th request of the run (counting from 0)
    meets, given the payload it carries. *)
Definition server := nat -> ChatPayload -> exchange.

(** [range(n)] *)
Definition range (n : Z) : list Z := map Z.of_nat (seq 0 (Z.to_nat n)).

(** ** [generate_application_email] (lines 29-142) *)

Section Generate.

Variable lower : str -> str.
Variable api : server.

(** Line 91: [result.get('choices', [{}])[0].get('message', {}).get('content')] *)
Definition extract_content (result : json) : res json :=
  choices <- get result (lit "choices") (JArr [JObj []]) ;;
  first <- item0 choices ;;
  message <- get first (lit "message") (JObj []) ;;
  get message (lit "content") JNull.

(** Lines 78-129: the body of the [try], given what the POST met. *)
Definition try_body (x : exchange) : res str :=
  match x with
  | NoResponse => Raise ConnectionError
  | Response status_code body =>
      _ <- raise_for_status status_code ;;
      result <- response_json body ;;
      email_content <- extract_content result ;;
      if negb (truthy email_content) then Raise ValueError
      else
        match email_content with
        | JStr s => Ok (post_process lower s)
        | JArr _ | JObj _ => Raise AttributeError   (* no [lower], no [split] *)
        | JNull | JBool _ | JNum _ => Raise TypeError  (* [in] needs an iterable *)
        end
  end.

Definition max_retries : Z := 4.

(** Lines 76-142: the [for] loop over the attempts that remain. *)
Fixpoint retry_loop (p : ChatPayload) (attempts : list Z) (last_delay : Z)
    (w : world) : option str * world :=
  match attempts with
  | [] => (None, w)
  | i :: rest =>
      let x := api (posts w) p in
      let w := sent w in
      match try_body x with
      | Ok email => (Some email, w)
      | Raise (HTTPError status_code) =>
          if (status_code =? 429) && (i <? max_retries - 1)
          then retry_loop p rest (last_delay * 2) (sleep last_delay w)
          else (None, w)
      | Raise _ => (None, w)
      end
  end.

Definition generate_application_email (job_description resume_data : str)
    (w : world) : option str * world :=
  let p := payload job_description resume_data in
  let last_delay := 1 in
  let w := print (lit "Connecting to " ++ MODEL_NAME ++
                  lit " API and drafting email...") w in
  retry_loop p (range max_retries) last_delay w.

(** ** The command line (lines 144-182) *)

(** The file system: the text of the file at a path, if there is one. *)
Definition files := str -> option str.

Definition banner : str := repeat 61%N 50.

(** The script, from its arguments to its exit status. *)
Definition main (argv : list str) (fs : files) (w : world) : Z * world :=
  if (length argv <? 3)%nat then
    let w := print (lit "Usage: python email_generator.py <JOB_DESCRIPTION_FILE> <RESUME_FILE>") w in
    let w := print (lit "Example: python email_generator.py jd.txt resume.txt") w in
    (1, w)
  else
    let jd_file_path := nth 1 argv [] in
    let resume_file_path := nth 2 argv [] in
    match fs jd_file_path with
    | None =>
        (1, print (lit "Error: Job description file not found at " ++ jd_file_path) w)
    | Some jd_text =>
        let job_description := strip jd_text in
        match fs resume_file_path with
        | None =>
            (1, print (lit "Error: Resume file not found at " ++ resume_file_path) w)
        | Some resume_text =>
            let resume_data := strip resume_text in
            if str_eqb job_description [] || str_eqb resume_data [] then
              (1, print (nl ++ lit "Both job description and resume content must be provided. Exiting.") w)
            else
              let w := print (nl ++ lit "--- Starting Personalized Email Generation ---") w in
              let '(email_draft, w) :=
                generate_application_email job_description resume_data w in
              match email_draft with
              | Some ((_ :: _) as email) =>
                  let w := print (nl ++ banner) w in
                  let w := print (lit "PERSONALIZED APPLICATION EMAIL DRAFT") w in
                  let w := print banner w in
                  let w := print email w in
                  let w := print (nl ++ banner) w in
                  (0, w)
              | Some [] | None =>
                  (0, print (nl ++ lit "Could not generate the email draft. Check the console for error details.") w)
              end
        end
    end.

End Generate.

(** ** Vocabulary of the specification *)

(** [sub] occurs in [s] starting at index [i]. *)
Definition occurs_at (sub s : str) (i : nat) : Prop :=
  exists pre post, s = pre ++ sub ++ post /\ length pre = i.

(** [sub] is a contiguous piece of [s]. *)
Definition occurs (sub s : str) : Prop := exists i, occurs_at sub s i.

Definition first_occurrence (sub s : str) (i : nat) : Prop :=
  occurs_at sub s i /\ forall j, occurs_at sub s j -> (i <= j)%nat.

Definition last_occurrence (sub s : str) (i : nat) : Prop :=
  occurs_at sub s i /\ forall j, occurs_at sub s j -> (j <= i)%nat.

(** The test of lines 111-112 as the code computes it: the last occurrence
    of the lowered phrase in the lowered text starts at [i], and [i] is
    less than 200 below the length of the text itself. *)
Definition cuts (lower : str -> str) (text closing : str) (i : nat) : Prop :=
  last_occurrence (lower closing) (lower text) i /\
  len text - Z.of_nat i < 200.

(** An "@" among the last 100 characters of the text. *)
Definition at_sign_near_end (text : str) : Prop :=
  exists pre post, text = pre ++ 64%N :: post /\ (length post < 100)%nat.

(** The delays of [k] consecutive retries that start from [delay]. *)
Fixpoint backoff (delay : Z) (k : nat) : list Z :=
  match k with
  | O => []
  | S k' => delay :: backoff (delay * 2) k'
  end.

(** The world after [k] rate-limited attempts that began with [delay]. *)
Definition retried (delay : Z) (k : nat) (w : world) : world :=
  {| posts := posts w + k;
     sleeps := sleeps w ++ backoff delay k;
     stdout := stdout w |}.

(** The HTTP status that is retried. *)
Definition rate_limited (x : exchange) : Prop :=
  exists body, x = Response 429 body.

(** The failures that end the call at once: an HTTP error status other
    than 429, no response, a body that is not JSON, a JSON value of the
    wrong shape, and content that is missing, empty or not a string. *)
Inductive terminal_failure : exchange -> Prop :=
| Fail_status status_code body :
    400 <= status_code < 600 -> status_code <> 429 ->
    terminal_failure (Response status_code body)
| Fail_network :
    terminal_failure NoResponse
| Fail_json status_code :
    ~ 400 <= status_code < 600 ->
    terminal_failure (Response status_code None)
| Fail_shape status_code result e :
    ~ 400 <= status_code < 600 ->
    extract_content result = Raise e ->
    terminal_failure (Response status_code (Some result))
| Fail_content status_code result content :
    ~ 400 <= status_code < 600 ->
    extract_content result = Ok content ->
    (forall raw, content = JStr raw -> raw = []) ->
    terminal_failure (Response status_code (Some result)).

(** A well-formed response that carries [content]. *)
Definition ok_response (content : str) : exchange :=
  Response 200 (Some (JObj [(lit "choices",
    JArr [JObj [(lit "message", JObj [(lit "content", JStr content)])]])])).

(** ** Sample inputs *)

(** A server that answers every request alike. *)
Definition always (x : exchange) : server := fun _ _ => x.

(** A server that rate-limits the first [n] requests and then answers [x]. *)
Definition rate_limited_then (n : nat) (x : exchange) : server :=
  fun k _ => if (k <? n)%nat then Response 429 None else x.

(** The model signed the email and then wrote the stop phrase. *)
Definition signed_before_marker : str := lit "Dear team,

I fit the role.

Best regards,
Abhinav
---END-OF-BODY---".

(** The model wrote the stop phrase and went on after it. *)
Definition marker_then_sign_off : str := lit "Dear team,

I fit the role.
---END-OF-BODY---
Best regards,
Abhinav".

(** No stop phrase, no sign-off, a newline at the end. *)
Definition trailing_newline : str := lit "Subject: Application

Dear Hiring Manager, I fit the role.
".

Definition plain_text : str := lit "Subject: Application

Dear Hiring Manager, I fit the role.".

(** The trailing fragment of the specification's example. *)
Definition signed_with_contact : str := lit "Subject: Application

Dear Hiring Manager, I fit the role.

Best regards,
Someone
email@x.com".

Definition signed_sincerely : str := lit "Dear Hiring Manager, I fit the role.

SINCERELY,
Someone".

Definition contact_paragraph : str := lit "I fit the role.

Reach me at me@x.com".

(** The command line [email_generator.py jd.txt resume.txt] next to a job
    description and an empty resume. *)
Definition sample_argv : list str :=
  [lit "email_generator.py"; lit "jd.txt"; lit "resume.txt"].


(** ** Vocabulary of the further properties *)

(** A text that neither starts nor ends with white space. *)
Definition trimmed (s : str) : Prop :=
  (forall c r, s = c :: r -> isspace c = false) /\
  (forall r c, s = r ++ [c] -> isspace c = false).

(** The seconds a list of delays adds up to. *)
Definition total (delays : list Z) : Z := fold_right Z.add 0 delays.

(** The line [generate_application_email] prints before its first request. *)
Definition connecting_line : str :=
  lit "Connecting to " ++ MODEL_NAME ++ lit " API and drafting email...".

(** How an attempt ends the call: with an email, with a terminal failure,
    or with a rate limit when it is the fourth attempt. *)
Definition ends_call (lower : str -> str) (x : exchange)
    (attempt : nat) (r : option str) : Prop :=
  (exists email, r = Some email /\ try_body lower x = Ok email) \/
  (r = None /\ terminal_failure x) \/
  (r = None /\ rate_limited x /\ attempt = 3%nat).

(** What separates the job description from the resume in the user message. *)
Definition resume_heading : str :=
  nl ++ lit "---" ++ nl ++ nl ++ lit "Candidate Resume:" ++ nl ++ nl ++
  lit "---" ++ nl.

(** The stop phrase with nothing after it. *)
Definition marker_at_end : str := lit "Dear team,

I fit the role.
---END-OF-BODY---".

(** A job description and a resume, both with text. *)
Definition both_files : files :=
  fun path =>
    if str_eqb path (lit "jd.txt") then Some (lit "Engineer wanted.
")
    else if str_eqb path (lit "resume.txt") then Some (lit "  Five years of Rocq.")
    else None.

(** ** Lower-casing that changes lengths *)

(** [str.lower()] of one code point, for code points below U+0100 and for
    U+0130, LATIN CAPITAL LETTER I WITH DOT ABOVE, whose lower-case form
    is the two code points U+0069 U+0307. *)
Definition lower_cp_dotted (c : N) : str :=
  if (c =? 304)%N then [105%N; 775%N] else [lower_cp c].

Definition lower_dotted (s : str) : str := flat_map lower_cp_dotted s.

(** [lower] works character by character on [text]: one map of code
    points gives the lower-case form of every piece of it. *)
Definition charwise (lower : str -> str) (text : str) : Prop :=
  exists f : N -> N,
    forall piece, occurs piece text -> lower piece = map f piece.

(** [phrase] is found in [text] at [i] when case is ignored: a piece of
    the text starts there whose lower-case form is that of the phrase. *)
Definition matches_at (lower : str -> str) (phrase text : str) (i : nat)
    : Prop :=
  exists pre m post,
    text = pre ++ m ++ post /\ length pre = i /\ lower m = lower phrase.

(** Three times U+0130, then a short body and a sign-off. *)
Definition dotted_sign_off : str := repeat 304%N 3 ++ lit " Hello. Sincerely,
Bob".

(** ** The script on a console that can refuse a text *)

(** The texts [print] can write.  On any other text it raises (a
    UnicodeEncodeError for a text the console's encoding lacks); the
    script catches nothing around its prints, so it ends there with a
    traceback and exit status 1. *)
Definition console := str -> bool.

(** A console in UTF-8: everything but the surrogates U+D800..U+DFFF. *)
Definition utf8_console : console :=
  forallb (fun c => negb ((55296 <=? c) && (c <=? 57343))%N).

(** [print(line)], then the rest of the script. *)
Definition printing (accepts : console) (line : str) (w : world)
    (rest : world -> Z * world) : Z * world :=
  if accepts line then rest (print line w) else (1, w).

(** Lines 144-182 with [print] as it fails: [main] with every print
    through the console, the one of line 74 included. *)
Definition main_on (accepts : console) (lower : str -> str) (api : server)
    (argv : list str) (fs : files) (w : world) : Z * world :=
  if (length argv <? 3)%nat then
    printing accepts (lit "Usage: python email_generator.py <JOB_DESCRIPTION_FILE> <RESUME_FILE>") w (fun w =>
    printing accepts (lit "Example: python email_generator.py jd.txt resume.txt") w (fun w =>
    (1, w)))
  else
    let jd_file_path := nth 1 argv [] in
    let resume_file_path := nth 2 argv [] in
    match fs jd_file_path with
    | None =>
        printing accepts (lit "Error: Job description file not found at " ++ jd_file_path) w (fun w =>
        (1, w))
    | Some jd_text =>
        let job_description := strip jd_text in
        match fs resume_file_path with
        | None =>
            printing accepts (lit "Error: Resume file not found at " ++ resume_file_path) w (fun w =>
            (1, w))
        | Some resume_text =>
            let resume_data := strip resume_text in
            if str_eqb job_description [] || str_eqb resume_data [] then
              printing accepts (nl ++ lit "Both job description and resume content must be provided. Exiting.") w (fun w =>
              (1, w))
            else
              printing accepts (nl ++ lit "--- Starting Personalized Email Generation ---") w (fun w =>
              if accepts connecting_line then
                let '(email_draft, w) :=
                  generate_application_email lower api job_description resume_data w in
                match email_draft with
                | Some ((_ :: _) as email) =>
                    printing accepts (nl ++ banner) w (fun w =>
                    printing accepts (lit "PERSONALIZED APPLICATION EMAIL DRAFT") w (fun w =>
                    printing accepts banner w (fun w =>
                    printing accepts email w (fun w =>
                    printing accepts (nl ++ banner) w (fun w =>
                    (0, w))))))
                | Some [] | None =>
                    printing accepts (nl ++ lit "Could not generate the email draft. Check the console for error details.") w (fun w =>
                    (0, w))
                end
              else (1, w))
        end
    end.

(** The lines of a run on valid input that do not depend on the reply. *)
Definition fixed_lines : list str :=
  [ nl ++ lit "--- Starting Personalized Email Generation ---";
    connecting_line;
    nl ++ banner;
    lit "PERSONALIZED APPLICATION EMAIL DRAFT";
    banner;
    nl ++ lit "Could not generate the email draft. Check the console for error details." ].

(** * Occurrences of one string in another *)

Lemma startswith_iff sub s :
  startswith sub s = true <-> exists post, s = sub ++ post.
Proof.
  revert s; induction sub as [|a sub IH]; intros s; simpl.
  - split; [intros _; now exists s | reflexivity].
  - destruct s as [|b s].
    + split; [discriminate | intros [post H]; discriminate].
    + rewrite andb_true_iff, N.eqb_eq, IH. split.
      * intros [-> [post ->]]. now exists post.
      * intros [post H]. injection H as -> ->. split; [reflexivity | now exists post].
Qed.

Lemma occurs_at_0 sub s : occurs_at sub s 0 <-> startswith sub s = true.
Proof.
  rewrite startswith_iff. split.
  - intros (pre & post & -> & Hlen). destruct pre; [|discriminate]. now exists post.
  - intros [post ->]. now exists [], post.
Qed.

Lemma occurs_at_S sub c s i : occurs_at sub (c :: s) (S i) <-> occurs_at sub s i.
Proof.
  split.
  - intros (pre & post & E & Hlen). destruct pre as [|d pre]; [discriminate|].
    injection E as -> ->. injection Hlen as Hlen. now exists pre, post.
  - intros (pre & post & -> & Hlen). exists (c :: pre), post. simpl. now rewrite Hlen.
Qed.

Lemma occurs_at_nil sub i : occurs_at sub [] i -> i = O.
Proof.
  intros (pre & post & E & Hlen). destruct pre; [now symmetry | discriminate].
Qed.

Lemma rfind_nat_None sub s :
  rfind_nat sub s = None -> forall j, ~ occurs_at sub s j.
Proof.
  induction s as [|c s IH]; simpl; intros E j Hj.
  - pose proof (occurs_at_nil _ _ Hj) as ->.
    apply occurs_at_0 in Hj. now rewrite Hj in E.
  - destruct (rfind_nat sub s); [discriminate|].
    destruct (startswith sub (c :: s)) eqn:E0; [discriminate|].
    destruct j as [|j].
    + apply occurs_at_0 in Hj. congruence.
    + apply occurs_at_S in Hj. now apply (IH eq_refl j).
Qed.

Lemma rfind_nat_Some sub s i :
  rfind_nat sub s = Some i -> last_occurrence sub s i.
Proof.
  revert i; induction s as [|c s IH]; intros i; simpl.
  - destruct (startswith sub []) eqn:E; [|discriminate].
    intros [= <-]. split; [now apply occurs_at_0|].
    intros j Hj. apply occurs_at_nil in Hj. lia.
  - destruct (rfind_nat sub s) as [j|] eqn:Ej.
    + intros [= <-]. destruct (IH j eq_refl) as [Hocc Hmax]. split.
      * now apply occurs_at_S.
      * intros [|k] Hk; [lia|]. apply occurs_at_S in Hk. apply Hmax in Hk. lia.
    + destruct (startswith sub (c :: s)) eqn:E; [|discriminate].
      intros [= <-]. split; [now apply occurs_at_0|].
      intros [|k] Hk; [lia|]. apply occurs_at_S in Hk.
      now apply (rfind_nat_None _ _ Ej) in Hk.
Qed.

Lemma last_occurrence_unique sub s i j :
  last_occurrence sub s i -> last_occurrence sub s j -> i = j.
Proof.
  intros [Hi Mi] [Hj Mj]. apply Mi in Hj. apply Mj in Hi. lia.
Qed.

(** [rfind_nat] computes the last occurrence, and finds one if any exists. *)
Lemma rfind_nat_iff sub s i :
  rfind_nat sub s = Some i <-> last_occurrence sub s i.
Proof.
  split; [apply rfind_nat_Some|]. intros H.
  destruct (rfind_nat sub s) as [j|] eqn:E.
  - f_equal. apply rfind_nat_Some in E. eapply last_occurrence_unique; eauto.
  - destruct H as [H _]. now apply (rfind_nat_None _ _ E) in H.
Qed.

Lemma rfind_nat_None_iff sub s :
  rfind_nat sub s = None <-> ~ occurs sub s.
Proof.
  split.
  - intros E [j Hj]. now apply (rfind_nat_None _ _ E) in Hj.
  - intros H. destruct (rfind_nat sub s) as [j|] eqn:E; [|reflexivity].
    apply rfind_nat_Some in E. destruct E as [E _]. exfalso. apply H. now exists j.
Qed.

Lemma find_nat_None sub s :
  find_nat sub s = None -> forall j, ~ occurs_at sub s j.
Proof.
  induction s as [|c s IH]; simpl; intros E j Hj.
  - pose proof (occurs_at_nil _ _ Hj) as ->.
    apply occurs_at_0 in Hj. now rewrite Hj in E.
  - destruct (startswith sub (c :: s)) eqn:E0; [discriminate|].
    destruct (find_nat sub s); [discriminate|].
    destruct j as [|j].
    + apply occurs_at_0 in Hj. congruence.
    + apply occurs_at_S in Hj. now apply (IH eq_refl j).
Qed.

Lemma find_nat_Some sub s i :
  find_nat sub s = Some i -> first_occurrence sub s i.
Proof.
  revert i; induction s as [|c s IH]; intros i; simpl.
  - destruct (startswith sub []) eqn:E; [|discriminate].
    intros [= <-]. split; [now apply occurs_at_0 | intros; lia].
  - destruct (startswith sub (c :: s)) eqn:E.
    + intros [= <-]. split; [now apply occurs_at_0 | intros; lia].
    + destruct (find_nat sub s) as [j|]; [|discriminate].
      intros [= <-]. destruct (IH j eq_refl) as [Hocc Hmin]. split.
      * now apply occurs_at_S.
      * intros [|k] Hk.
        -- apply occurs_at_0 in Hk. congruence.
        -- apply occurs_at_S in Hk. apply Hmin in Hk. lia.
Qed.

Lemma first_occurrence_unique sub s i j :
  first_occurrence sub s i -> first_occurrence sub s j -> i = j.
Proof.
  intros [Hi Mi] [Hj Mj]. apply Mi in Hj. apply Mj in Hi. lia.
Qed.

Lemma find_nat_iff sub s i :
  find_nat sub s = Some i <-> first_occurrence sub s i.
Proof.
  split; [apply find_nat_Some|]. intros H.
  destruct (find_nat sub s) as [j|] eqn:E.
  - f_equal. apply find_nat_Some in E. eapply first_occurrence_unique; eauto.
  - destruct H as [H _]. now apply (find_nat_None _ _ E) in H.
Qed.

(** [sub in s] holds exactly when [sub] occurs somewhere in [s]. *)
Lemma contains_iff sub s : contains sub s = true <-> occurs sub s.
Proof.
  induction s as [|c s IH]; simpl.
  - rewrite orb_false_r, <- occurs_at_0. split; [intros H; now exists O|].
    intros [j Hj]. now rewrite (occurs_at_nil _ _ Hj) in Hj.
  - rewrite orb_true_iff, IH, <- occurs_at_0. split.
    + intros [H | [j Hj]]; [now exists O|]. exists (S j). now apply occurs_at_S.
    + intros [[|j] Hj]; [now left|]. right. exists j. now apply occurs_at_S in Hj.
Qed.

Lemma contains_false_iff sub s : contains sub s = false <-> ~ occurs sub s.
Proof.
  rewrite <- contains_iff. destruct (contains sub s); split; congruence.
Qed.

(** A one-character needle occurs exactly when the character is in the text. *)
Lemma occurs_char c s : occurs [c] s <-> In c s.
Proof.
  split.
  - intros (i & pre & post & -> & _). apply in_or_app. right. now left.
  - intros H. apply in_split in H. destruct H as (pre & post & ->).
    now exists (length pre), pre, post.
Qed.

(** The first piece of a split is the text before the first occurrence of
    the separator, or the whole text when there is none. *)
Lemma split_go_first sep cur s :
  nth 0 (split_go sep 0 cur s) [] =
  rev cur ++ match find_nat sep s with
             | Some i => firstn i s
             | None => s
             end.
Proof.
  revert cur; induction s as [|c s IH]; intros cur.
  - simpl. destruct (startswith sep []); simpl; now rewrite app_nil_r.
  - cbn [split_go find_nat]. destruct (startswith sep (c :: s)).
    + simpl. now rewrite app_nil_r.
    + rewrite IH. simpl. rewrite <- app_assoc. simpl.
      now destruct (find_nat sep s).
Qed.

Lemma split_first s sep i :
  first_occurrence sep s i -> nth 0 (split s sep) [] = firstn i s.
Proof.
  intros H. apply find_nat_iff in H. unfold split.
  now rewrite split_go_first, H.
Qed.

(** * Slices and trimming *)

Lemma slice_to_nat s (i : nat) : slice_to s (Z.of_nat i) = firstn i s.
Proof.
  unfold slice_to, slice_index, len.
  destruct (Z.ltb_spec (Z.of_nat i) 0) as [H|_]; [lia|].
  destruct (Nat.le_gt_cases i (length s)) as [H|H].
  - f_equal. lia.
  - rewrite (firstn_all2 (n := i)) by lia. apply firstn_all2. lia.
Qed.

Lemma slice_from_last s (k : nat) :
  slice_from s (- Z.of_nat (S k)) = skipn (length s - S k) s.
Proof.
  unfold slice_from, slice_index, len.
  destruct (Z.ltb_spec (- Z.of_nat (S k)) 0) as [_|H]; [|lia].
  f_equal. lia.
Qed.

Lemma occurs_refl s : occurs s s.
Proof. exists O, [], []. now rewrite app_nil_r. Qed.

Lemma occurs_trans a b c : occurs a b -> occurs b c -> occurs a c.
Proof.
  intros (i & p1 & q1 & -> & _) (j & p2 & q2 & -> & _).
  exists (length (p2 ++ p1)), (p2 ++ p1), (q1 ++ q2). split; [|reflexivity].
  now rewrite <- !app_assoc.
Qed.

Lemma occurs_firstn n s : occurs (firstn n s) s.
Proof.
  exists O, [], (skipn n s). split; [|reflexivity]. simpl.
  now rewrite firstn_skipn.
Qed.

(** [lstrip] removes a prefix made of white space. *)
Lemma lstrip_split s :
  exists ws, s = ws ++ lstrip s /\ forallb isspace ws = true.
Proof.
  induction s as [|c s (ws & E & Hws)]; [now exists []|]. simpl.
  destruct (isspace c) eqn:Ec.
  - exists (c :: ws). simpl. rewrite Ec, Hws. now rewrite <- E.
  - now exists [].
Qed.

Lemma lstrip_head s c r : lstrip s = c :: r -> isspace c = false.
Proof.
  induction s as [|d s IH]; simpl; [discriminate|].
  destruct (isspace d) eqn:Ed; [exact IH|]. now intros [= <- _].
Qed.

(** [rstrip] removes a suffix made of white space. *)
Lemma rstrip_split s :
  exists ws, s = rstrip s ++ ws /\ forallb isspace ws = true.
Proof.
  unfold rstrip. destruct (lstrip_split (rev s)) as (ws & E & Hws).
  exists (rev ws). split.
  - rewrite <- rev_app_distr, <- E. now rewrite rev_involutive.
  - rewrite forallb_forall in *. intros x Hx. apply Hws. now apply in_rev.
Qed.

Lemma rstrip_last s r c : rstrip s = r ++ [c] -> isspace c = false.
Proof.
  unfold rstrip. intros E. apply (f_equal (@rev _)) in E.
  rewrite rev_involutive, rev_app_distr in E. simpl in E.
  now apply lstrip_head in E.
Qed.

(** What [strip] returns: the text between a white-space prefix and a
    white-space suffix, itself neither starting nor ending with white
    space. *)
Lemma strip_spec s :
  exists ws1 ws2,
    s = ws1 ++ strip s ++ ws2 /\
    forallb isspace ws1 = true /\ forallb isspace ws2 = true /\
    (forall c r, strip s = c :: r -> isspace c = false) /\
    (forall r c, strip s = r ++ [c] -> isspace c = false).
Proof.
  destruct (lstrip_split s) as (ws1 & E1 & H1).
  destruct (rstrip_split (lstrip s)) as (ws2 & E2 & H2).
  exists ws1, ws2. unfold strip. repeat split; auto.
  - now rewrite <- E2.
  - intros c r E. rewrite E in E2.
    simpl in E2. now apply lstrip_head in E2.
  - intros r c. apply rstrip_last.
Qed.

Lemma occurs_strip s : occurs (strip s) s.
Proof.
  destruct (strip_spec s) as (ws1 & ws2 & E & _).
  now exists (length ws1), ws1, ws2.
Qed.

Lemma occurs_strip_firstn n s : occurs (strip (firstn n s)) s.
Proof.
  eapply occurs_trans; [apply occurs_strip | apply occurs_firstn].
Qed.

(** * The cleanup steps *)

Section Cleanup.

Variable lower : str -> str.

Lemma primary_cleanup_absent raw :
  ~ occurs stop_phrase raw -> primary_cleanup raw = raw.
Proof.
  intros H. apply contains_false_iff in H. unfold primary_cleanup. now rewrite H.
Qed.

Lemma primary_cleanup_present raw i :
  first_occurrence stop_phrase raw i ->
  primary_cleanup raw = strip (firstn i raw).
Proof.
  intros H. unfold primary_cleanup.
  assert (contains stop_phrase raw = true) as ->.
  { apply contains_iff. exists i. apply H. }
  now rewrite (split_first _ _ _ H).
Qed.

(** The test of line 112, read on occurrences. *)
Lemma closing_test text closing :
  negb (rfind (lower text) (lower closing) =? -1) &&
  (len text - rfind (lower text) (lower closing) <? 200) = true <->
  exists i, cuts lower text closing i.
Proof.
  unfold rfind, cuts. rewrite andb_true_iff, negb_true_iff, Z.eqb_neq, Z.ltb_lt.
  destruct (rfind_nat (lower closing) (lower text)) as [j|] eqn:E.
  - split.
    + intros [_ H]. exists j. split; [now apply rfind_nat_iff | exact H].
    + intros (i & Hi & Hd). apply rfind_nat_iff in Hi.
      assert (i = j) as -> by congruence. split; [lia | exact Hd].
  - split; [intros [H _]; now elim H|].
    intros (i & Hi & _). apply rfind_nat_iff in Hi. congruence.
Qed.

Lemma closing_loop_skip closings text :
  (forall c, In c closings -> ~ exists i, cuts lower text c i) ->
  closing_loop lower closings text = text.
Proof.
  induction closings as [|c rest IH]; intros H; [reflexivity|]. simpl.
  destruct (negb _ && _) eqn:T.
  - apply closing_test in T. elim (H c); [now left | exact T].
  - apply IH. intros d Hd. apply H. now right.
Qed.

Lemma closing_loop_cut before closing after text i :
  (forall c, In c before -> ~ exists i, cuts lower text c i) ->
  cuts lower text closing i ->
  closing_loop lower (before ++ closing :: after) text = strip (firstn i text).
Proof.
  intros Hb Hc. induction before as [|c rest IH]; simpl.
  - assert (T : exists i, cuts lower text closing i) by now exists i.
    apply closing_test in T. rewrite T.
    unfold rfind. destruct Hc as [Hc _]. apply rfind_nat_iff in Hc. rewrite Hc.
    now rewrite slice_to_nat.
  - destruct (negb _ && _) eqn:T.
    + apply closing_test in T. elim (Hb c); [now left | exact T].
    + apply IH. intros d Hd. apply Hb. now right.
Qed.

(** The test of line 118, read on positions. *)
Lemma at_sign_test text :
  contains (lit "@") (slice_from text (-100)) = true <-> at_sign_near_end text.
Proof.
  change (-100) with (- Z.of_nat 100). rewrite slice_from_last.
  change (lit "@") with [64%N]. rewrite contains_iff, occurs_char.
  set (k := (length text - 100)%nat). split.
  - intros H. apply in_split in H. destruct H as (a & b & E).
    exists (firstn k text ++ a), b. split.
    + rewrite <- app_assoc, <- E. now rewrite firstn_skipn.
    + apply (f_equal (@length _)) in E.
      rewrite length_skipn, length_app in E. simpl in E. lia.
  - intros (pre & post & -> & Hlen).
    rewrite skipn_app. apply in_or_app. right.
    replace (k - length pre)%nat with O; [now left|].
    unfold k. rewrite length_app. simpl. lia.
Qed.

Lemma contact_cleanup_far text :
  ~ at_sign_near_end text -> contact_cleanup text = text.
Proof.
  intros H. unfold contact_cleanup.
  destruct (contains _ (slice_from _ _)) eqn:T; [|reflexivity].
  now apply at_sign_test in T.
Qed.

Lemma contact_cleanup_one_block text :
  ~ occurs (nl ++ nl) text -> contact_cleanup text = text.
Proof.
  intros H. apply rfind_nat_None_iff in H. unfold contact_cleanup, rsplit1.
  rewrite H. simpl. now destruct (contains _ (slice_from _ _)).
Qed.

Lemma contact_cleanup_split text i :
  at_sign_near_end text ->
  last_occurrence (nl ++ nl) text i ->
  contact_cleanup text =
  if contains (lit "@") (skipn (i + 2) text) || contains (lit "+") (skipn (i + 2) text)
  then strip (firstn i text)
  else text.
Proof.
  intros Hat Hi. apply at_sign_test in Hat. apply rfind_nat_iff in Hi.
  unfold contact_cleanup, rsplit1. now rewrite Hat, Hi.
Qed.

(** Each step returns a contiguous piece of its input. *)
Lemma primary_cleanup_occurs raw : occurs (primary_cleanup raw) raw.
Proof.
  unfold primary_cleanup. destruct (contains stop_phrase raw); [|apply occurs_refl].
  unfold split. rewrite split_go_first. simpl.
  destruct (find_nat stop_phrase raw); [apply occurs_strip_firstn | apply occurs_strip].
Qed.

Lemma closing_loop_occurs closings text :
  occurs (closing_loop lower closings text) text.
Proof.
  induction closings as [|c rest IH]; simpl; [apply occurs_refl|].
  destruct (negb _ && _); [|exact IH].
  unfold slice_to. apply occurs_strip_firstn.
Qed.

Lemma contact_cleanup_occurs text : occurs (contact_cleanup text) text.
Proof.
  unfold contact_cleanup, rsplit1.
  destruct (contains _ (slice_from _ _)); [|apply occurs_refl].
  destruct (rfind_nat (nl ++ nl) text); simpl; [|apply occurs_refl].
  destruct (_ || _); [apply occurs_strip_firstn | apply occurs_refl].
Qed.

Lemma sanitized_body_occurs raw : occurs (sanitized_body lower raw) raw.
Proof.
  unfold sanitized_body, secondary_cleanup.
  eapply occurs_trans; [apply contact_cleanup_occurs|].
  eapply occurs_trans; [apply closing_loop_occurs | apply primary_cleanup_occurs].
Qed.

End Cleanup.

(** * Where the stop phrase can and cannot be *)

Lemma occurs_at_firstn sub s n j :
  occurs_at sub (firstn n s) j ->
  occurs_at sub s j /\ (j + length sub <= n)%nat.
Proof.
  intros (pre & post & E & Hlen). split.
  - exists pre, (post ++ skipn n s). split; [|exact Hlen].
    rewrite <- (firstn_skipn n s) at 1. rewrite E. now rewrite <- !app_assoc.
  - pose proof (firstn_le_length n s) as L. rewrite E in L.
    rewrite !length_app in L. lia.
Qed.

(** Nothing occurs before its own first occurrence. *)
Lemma not_before_first sub s i :
  sub <> [] -> first_occurrence sub s i -> ~ occurs sub (firstn i s).
Proof.
  intros Hne [_ Hmin] [j Hj]. apply occurs_at_firstn in Hj.
  destruct Hj as [Hj Hle]. apply Hmin in Hj.
  destruct sub; [now elim Hne | simpl in Hle; lia].
Qed.

Lemma occurs_first sub s : occurs sub s -> exists i, first_occurrence sub s i.
Proof.
  intros [j Hj]. destruct (find_nat sub s) as [i|] eqn:E.
  - exists i. now apply find_nat_iff.
  - now apply (find_nat_None _ _ E) in Hj.
Qed.

(** A needle without a newline cannot lie across one. *)
Lemma occurs_across_newline sub x z :
  ~ In 10%N sub -> occurs sub (x ++ 10%N :: z) -> occurs sub x \/ occurs sub z.
Proof.
  intros Hnl (i & pre & post & E & _).
  apply app_eq_app in E. destruct E as (l & [[E1 E2]|[E1 E2]]).
  - symmetry in E2. apply app_eq_app in E2.
    destruct E2 as (m & [[E3 E4]|[E3 E4]]).
    + left. exists (length pre), pre, m. split; [|reflexivity].
      now rewrite E1, E3.
    + destruct m as [|c m].
      * left. exists (length pre), pre, []. split; [|reflexivity].
        rewrite app_nil_r in E3. now rewrite E1, E3, app_nil_r.
      * injection E4 as <- _. elim Hnl. rewrite E3. apply in_or_app. right. now left.
  - destruct l as [|c l].
    + destruct sub as [|c sub].
      * left. exists O, [], x. now split.
      * injection E2 as <- _. elim Hnl. now left.
    + injection E2 as _ ->. right. now exists (length l), l, post.
Qed.

Lemma stop_phrase_not_appended body :
  ~ occurs stop_phrase body ->
  ~ occurs stop_phrase ((body ++ nl ++ nl) ++ CLOSING_BLOCK).
Proof.
  intros H F. rewrite <- app_assoc in F.
  change ((nl ++ nl) ++ CLOSING_BLOCK) with (10%N :: 10%N :: CLOSING_BLOCK) in F.
  apply occurs_across_newline in F.
  - destruct F as [F|F]; [now apply H|].
    apply contains_iff in F. vm_compute in F. discriminate.
  - vm_compute. intuition discriminate.
Qed.

(** Phrases whose occurrences all start 200 characters or more before the
    end of the text cut nothing. *)
Lemma far_occurrences_do_not_cut lower text closings :
  (forall c i, In c closings -> occurs_at (lower c) (lower text) i ->
               200 <= len text - Z.of_nat i) ->
  forall c, In c closings -> ~ exists i, cuts lower text c i.
Proof.
  intros H c Hc (i & [Hi _] & Hd). specialize (H c i Hc Hi). lia.
Qed.

Lemma contains_char c s : contains [c] s = true <-> In c s.
Proof. now rewrite contains_iff, occurs_char. Qed.

Lemma post_process_ends_with_closing_block lower raw :
  exists body, post_process lower raw = body ++ CLOSING_BLOCK.
Proof. now exists (sanitized_body lower raw ++ nl ++ nl). Qed.

(** * The attempts *)

Section Attempts.

Variable lower : str -> str.
Variable api : server.

(** A successful attempt hands back the post-processed content of a
    response, and that content is a non-empty string. *)
Lemma try_body_Ok x email :
  try_body lower x = Ok email ->
  exists status_code body raw,
    x = Response status_code body /\ raw <> [] /\
    email = post_process lower raw.
Proof.
  destruct x as [|status_code body]; [discriminate|]. unfold try_body.
  destruct (raise_for_status status_code); [|discriminate]. simpl.
  destruct (response_json body) as [result|]; [|discriminate]. simpl.
  destruct (extract_content result) as [content|]; [|discriminate]. simpl.
  destruct (truthy content) eqn:T; [|discriminate]. simpl.
  destruct content as [| | |raw| |]; try discriminate.
  intros [= <-]. exists status_code, body, raw. repeat split.
  intros ->. discriminate.
Qed.

Lemma retry_loop_Some p attempts last_delay w email w' :
  retry_loop lower api p attempts last_delay w = (Some email, w') ->
  exists raw, raw <> [] /\ email = post_process lower raw.
Proof.
  revert last_delay w; induction attempts as [|i rest IH]; intros last_delay w;
    simpl; [discriminate|].
  destruct (try_body lower (api (posts w) p)) as [e|ex] eqn:T.
  - intros [= <- _]. apply try_body_Ok in T.
    destruct T as (_ & _ & raw & _ & Hraw & ->). now exists raw.
  - destruct ex; try discriminate.
    destruct (_ && _); [apply IH | discriminate].
Qed.

(** An HTTP error status makes [raise_for_status] raise, whatever the body. *)
Lemma try_body_status status_code body :
  400 <= status_code < 600 ->
  try_body lower (Response status_code body) = Raise (HTTPError status_code).
Proof.
  intros H. unfold try_body, raise_for_status.
  destruct (Z.leb_spec 400 status_code); [|lia].
  destruct (Z.ltb_spec status_code 600); [|lia]. reflexivity.
Qed.

Lemma raise_for_status_ok status_code :
  ~ 400 <= status_code < 600 -> raise_for_status status_code = Ok tt.
Proof.
  intros H. unfold raise_for_status.
  destruct (Z.leb_spec 400 status_code); [|reflexivity].
  destruct (Z.ltb_spec status_code 600); [lia | reflexivity].
Qed.

(** The content lookup raises no HTTP error. *)
Lemma extract_content_raises result e :
  extract_content result = Raise e -> forall c, e <> HTTPError c.
Proof.
  unfold extract_content.
  destruct (get result _ _) as [choices|e0] eqn:E0; simpl.
  - destruct (item0 choices) as [first|e1] eqn:E1; simpl.
    + destruct (get first _ _) as [message|e2] eqn:E2; simpl.
      * destruct message; simpl; intros [= <-]; discriminate.
      * intros [= <-]. destruct first; simpl in E2; now inversion E2.
    + intros [= <-].
      destruct choices as [| | |[|]|[|]|]; simpl in E1; now inversion E1.
  - intros [= <-]. destruct result; simpl in E0; now inversion E0.
Qed.

(** A terminal failure raises something else than the error for status 429. *)
Lemma terminal_failure_raises x :
  terminal_failure x ->
  exists e, try_body lower x = Raise e /\ e <> HTTPError 429.
Proof.
  intros [status_code body H N | | status_code H | status_code result e H E
         | status_code result content H E C].
  - exists (HTTPError status_code). split; [now apply try_body_status|].
    intros [= ->]. now apply N.
  - now exists ConnectionError.
  - exists JSONDecodeError. unfold try_body.
    now rewrite (raise_for_status_ok _ H).
  - unfold try_body. rewrite (raise_for_status_ok _ H). simpl. rewrite E. simpl.
    exists e. split; [reflexivity|]. intros ->. now apply (extract_content_raises _ _ E 429).
  - unfold try_body. rewrite (raise_for_status_ok _ H). simpl. rewrite E. simpl.
    destruct (truthy content) eqn:T; simpl; [|now exists ValueError].
    destruct content as [| | |raw| |];
      try (now exists TypeError); try (now exists AttributeError).
    rewrite (C raw eq_refl) in T. discriminate.
Qed.

(** Every exchange is a success, a rate limit or a terminal failure. *)
Lemma exchange_cases x :
  (exists email, try_body lower x = Ok email) \/
  rate_limited x \/ terminal_failure x.
Proof.
  destruct x as [|status_code body]; [right; right; constructor|].
  destruct (Z.eq_dec status_code 429) as [->|N]; [right; left; now exists body|].
  assert (D : 400 <= status_code < 600 \/ ~ 400 <= status_code < 600) by lia.
  destruct D as [D|D]; [right; right; now constructor|].
  destruct body as [result|]; [|right; right; now constructor].
  destruct (extract_content result) as [content|e] eqn:E;
    [|right; right; now apply Fail_shape with e].
  destruct content as [| | |raw| |];
    try (right; right; apply Fail_content with (content := content);
         auto; subst content; discriminate);
    try (right; right; eapply Fail_content; eauto; discriminate).
  destruct raw as [|c raw].
  - right. right. eapply Fail_content; eauto. now intros ? [= <-].
  - left. unfold try_body. rewrite (raise_for_status_ok _ D). simpl.
    rewrite E. simpl. eauto.
Qed.

(** One iteration of the loop, by what the attempt meets. *)
Lemma retry_loop_success p i rest last_delay w email :
  try_body lower (api (posts w) p) = Ok email ->
  retry_loop lower api p (i :: rest) last_delay w = (Some email, sent w).
Proof. intros E. simpl. now rewrite E. Qed.

Lemma retry_loop_again p i rest last_delay w :
  rate_limited (api (posts w) p) -> i < 3 ->
  retry_loop lower api p (i :: rest) last_delay w =
  retry_loop lower api p rest (last_delay * 2) (sleep last_delay (sent w)).
Proof.
  intros [body E] Hi. simpl. rewrite E. simpl.
  destruct (Z.ltb_spec i 3); [reflexivity | lia].
Qed.

Lemma retry_loop_exhausted p i rest last_delay w :
  rate_limited (api (posts w) p) -> 3 <= i ->
  retry_loop lower api p (i :: rest) last_delay w = (None, sent w).
Proof.
  intros [body E] Hi. simpl. rewrite E. simpl.
  destruct (Z.ltb_spec i 3); [lia | reflexivity].
Qed.

Lemma retry_loop_failure p i rest last_delay w :
  terminal_failure (api (posts w) p) ->
  retry_loop lower api p (i :: rest) last_delay w = (None, sent w).
Proof.
  intros H. apply terminal_failure_raises in H. destruct H as (e & E & N).
  simpl. rewrite E. destruct e as [c| | | | | | |]; try reflexivity.
  destruct (Z.eqb_spec c 429) as [->|_]; [now elim N | reflexivity].
Qed.

(** [k] rate limits in a row, each with a retry left, lead to attempt
    [i + k] with the delay doubled [k] times. *)
Lemma retry_loop_rate_limited p k : forall i m last_delay w,
  (forall j, (j < k)%nat -> rate_limited (api (posts w + j)%nat p)) ->
  (i + k <= 3)%nat ->
  retry_loop lower api p (map Z.of_nat (seq i (k + m))) last_delay w =
  retry_loop lower api p (map Z.of_nat (seq (i + k) m))
    (last_delay * 2 ^ Z.of_nat k) (retried last_delay k w).
Proof.
  induction k as [|k IH]; intros i m last_delay w H Hi.
  - rewrite Nat.add_0_r, Z.mul_1_r. f_equal.
    destruct w; unfold retried; simpl. now rewrite Nat.add_0_r, app_nil_r.
  - cbn [Nat.add seq map]. rewrite retry_loop_again; [| |lia].
    + rewrite IH.
      * f_equal; [f_equal; f_equal; lia | |].
        -- rewrite Nat2Z.inj_succ, Z.pow_succ_r by lia. lia.
        -- unfold retried; simpl. f_equal; [lia|]. now rewrite <- app_assoc.
      * intros j Hj. simpl.
        replace (S (posts w + j)) with (posts w + S j)%nat by lia.
        apply H. lia.
      * lia.
    + specialize (H O). rewrite Nat.add_0_r in H. apply H. lia.
Qed.

(** However the attempts go, the loop over [range(i, 4)] sends between one
    and [4 - i] requests and sleeps the doubling delays between them. *)
Lemma retry_loop_shape p m : forall i last_delay w r w',
  (i + m = 4)%nat -> (0 < m)%nat ->
  retry_loop lower api p (map Z.of_nat (seq i m)) last_delay w = (r, w') ->
  exists k, (k < m)%nat /\ w' = sent (retried last_delay k w).
Proof.
  induction m as [|m IH]; intros i last_delay w r w' Him Hm; [lia|].
  cbn [seq map]. destruct (exchange_cases (api (posts w) p)) as [[email E]|[E|E]].
  - rewrite (retry_loop_success _ _ _ _ _ _ E). intros [= _ <-].
    exists O. split; [lia|]. unfold retried, sent; simpl.
    now rewrite Nat.add_0_r, app_nil_r.
  - destruct (Z.lt_ge_cases (Z.of_nat i) 3) as [Hi|Hi].
    + rewrite retry_loop_again by assumption. intros R.
      apply IH in R; [|lia|lia]. destruct R as (k & Hk & ->).
      exists (S k). split; [lia|]. unfold retried, sent; simpl.
      f_equal; [lia | now rewrite <- app_assoc].
    + rewrite retry_loop_exhausted by assumption. intros [= _ <-].
      exists O. split; [lia|]. unfold retried, sent; simpl.
      now rewrite Nat.add_0_r, app_nil_r.
  - rewrite retry_loop_failure by assumption. intros [= _ <-].
    exists O. split; [lia|]. unfold retried, sent; simpl.
    now rewrite Nat.add_0_r, app_nil_r.
Qed.

End Attempts.

(** * The whole call *)

Lemma generate_shape lower api jd rd w :
  exists k,
    (k < 4)%nat /\
    snd (generate_application_email lower api jd rd w)
      = sent (retried 1 k (print (lit "Connecting to " ++ MODEL_NAME ++
                                  lit " API and drafting email...") w)).
Proof.
  unfold generate_application_email.
  destruct (retry_loop _ _ _ _ _ _) as [r w'] eqn:E.
  change (range max_retries) with (map Z.of_nat (seq 0 4)) in E.
  apply retry_loop_shape in E; [|reflexivity|lia]. exact E.
Qed.

Lemma generate_after_rate_limits lower api jd rd w k m :
  (forall j, (j < k)%nat -> rate_limited (api (posts w + j)%nat (payload jd rd))) ->
  (k + m = 4)%nat -> (0 < m)%nat ->
  generate_application_email lower api jd rd w =
  retry_loop lower api (payload jd rd) (map Z.of_nat (seq k m))
    (2 ^ Z.of_nat k)
    (retried 1 k (print (lit "Connecting to " ++ MODEL_NAME ++
                         lit " API and drafting email...") w)).
Proof.
  intros H Hk Hm. unfold generate_application_email.
  change (range max_retries) with (map Z.of_nat (seq 0 4)).
  replace 4%nat with (k + m)%nat by exact Hk.
  rewrite retry_loop_rate_limited; [|exact H|lia].
  now rewrite Z.mul_1_l.
Qed.

Lemma str_eqb_nil s : str_eqb s [] = true <-> s = [].
Proof. destruct s; simpl; split; congruence. Qed.

(** * The cleanup as the code computes it *)

(** What the loop of lines 109-114 computes, for any [lower]: the first
    phrase in list order that passes the test of line 112 decides, and
    the text is cut at the position found in the lowered copy. *)
Lemma secondary_cleanup_as_computed lower text :
  (forall before closing after i,
      common_closings = before ++ closing :: after ->
      (forall c, In c before -> ~ exists j, cuts lower text c j) ->
      cuts lower text closing i ->
      secondary_cleanup lower text = strip (firstn i text)) /\
  ((forall c, In c common_closings -> ~ exists j, cuts lower text c j) ->
   secondary_cleanup lower text = text).
Proof.
  unfold secondary_cleanup. split.
  - intros before closing after i -> Hb Hc. now apply closing_loop_cut.
  - apply closing_loop_skip.
Qed.

(** A text that passes none of the code's tests goes through unchanged. *)
Lemma uncut_text_is_kept lower raw :
  ~ occurs stop_phrase raw ->
  (forall c i, In c common_closings ->
               occurs_at (lower c) (lower raw) i ->
               200 <= len raw - Z.of_nat i) ->
  ~ at_sign_near_end raw ->
  sanitized_body lower raw = raw /\
  post_process lower raw = raw ++ [10%N; 10%N] ++ CLOSING_BLOCK.
Proof.
  intros Hstop Hfar Hat.
  assert (E : sanitized_body lower raw = raw).
  { unfold sanitized_body, secondary_cleanup.
    rewrite (primary_cleanup_absent _ Hstop).
    rewrite closing_loop_skip
      by now apply far_occurrences_do_not_cut.
    now apply contact_cleanup_far. }
  split; [exact E|]. unfold post_process. now rewrite E, <- app_assoc.
Qed.

(** * Lower-casing character by character *)

(** Where [lower] works character by character, what is found in the
    lowered copy is in the text, at the same place. *)
Lemma charwise_match lower text phrase i :
  charwise lower text ->
  occurs_at (lower phrase) (lower text) i ->
  matches_at lower phrase text i.
Proof.
  intros [f Hf] (pre' & post' & E & Hlen).
  rewrite (Hf text (occurs_refl text)) in E.
  apply map_eq_app in E. destruct E as (pre & rest & -> & Epre & E).
  apply map_eq_app in E. destruct E as (m & post & -> & Em & _).
  exists pre, m, post. split; [reflexivity|]. split.
  - now rewrite <- Hlen, <- Epre, length_map.
  - rewrite <- Em. apply Hf. now exists (length pre), pre, post.
Qed.

Lemma charwise_match_back lower text phrase i :
  charwise lower text ->
  matches_at lower phrase text i ->
  occurs_at (lower phrase) (lower text) i.
Proof.
  intros [f Hf] (pre & m & post & -> & Hlen & Em).
  rewrite (Hf _ (occurs_refl _)), !map_app.
  exists (map f pre), (map f post). split; [|now rewrite length_map].
  do 2 f_equal. rewrite <- Em. symmetry. apply Hf.
  now exists (length pre), pre, post.
Qed.

Lemma lower_dotted_plain s :
  ~ In 304%N s -> lower_dotted s = map lower_cp s.
Proof.
  induction s as [|c s IH]; [reflexivity|]. intros H.
  unfold lower_dotted in *. simpl. unfold lower_cp_dotted at 1.
  destruct (N.eqb_spec c 304) as [->|_]; [elim H; now left|].
  simpl. f_equal. apply IH. intros F. apply H. now right.
Qed.

(** [lower_dotted] works character by character on a text without U+0130. *)
Lemma charwise_lower_dotted text :
  forallb (fun c => negb (c =? 304)%N) text = true ->
  charwise lower_dotted text.
Proof.
  intros H. exists lower_cp. intros piece (i & pre & post & -> & _).
  apply lower_dotted_plain. intros F.
  rewrite forallb_forall in H. specialize (H 304%N).
  rewrite N.eqb_refl in H. discriminate H.
  apply in_or_app. right. apply in_or_app. now left.
Qed.

(** * The claims of the specification *)

(** Settles, by evaluation, a hypothesis about occurrences in a given text. *)
Ltac no_such_occurrence H :=
  exfalso; apply contains_false_iff in H; [exact H | vm_compute; reflexivity].

Ltac far_from_closings :=
  let c := fresh "c" in let j := fresh "j" in
  let Hc := fresh "Hc" in let Hj := fresh "Hj" in
  intros c j Hc Hj;
  assert (occurs (lower_latin1 c) (lower_latin1 _)) by (exists j; exact Hj);
  clear Hj;
  repeat (destruct Hc as [<-|Hc];
          [match goal with H : occurs _ _ |- _ => no_such_occurrence H end|]);
  destruct Hc.

(** C1.  Whenever [generate_application_email] returns an email rather
    than [None], that email ends with [CLOSING_BLOCK], character for
    character, whatever the model wrote. *)
Theorem final_email_ends_with_closing_block :
  forall lower api job_description resume_data w final w',
    generate_application_email lower api job_description resume_data w
      = (Some final, w') ->
    exists body, final = body ++ CLOSING_BLOCK.
Proof.
  intros lower api jd rd w final w' H. unfold generate_application_email in H.
  apply retry_loop_Some in H. destruct H as (raw & _ & ->).
  apply post_process_ends_with_closing_block.
Qed.

Lemma final_email_ends_with_closing_block_witness :
  exists body,
    lit "Hello" ++ nl ++ nl ++ CLOSING_BLOCK = body ++ CLOSING_BLOCK.
Proof.
  apply (final_email_ends_with_closing_block lower_latin1
           (always (ok_response (lit "Hello"))) (lit "job") (lit "resume")
           start _
           (sent (print (lit "Connecting to llama-3.3-70b-versatile API and drafting email...") start))).
  vm_compute. reflexivity.
Defined.

(** C2.  The loop sends at most four requests and sleeps 1, 2, 4, ...
    seconds between them.  After three rate limits in a row it has slept
    1, 2 and 4 seconds; a fourth attempt that succeeds returns its email,
    and a fourth rate limit returns [None] with no fifth request. *)
Theorem rate_limit_backoff :
  forall lower api job_description resume_data w,
    let p := payload job_description resume_data in
    let run := generate_application_email lower api job_description resume_data w in
    (posts w < posts (snd run) <= posts w + 4)%nat /\
    sleeps (snd run) = sleeps w ++ backoff 1 (posts (snd run) - posts w - 1) /\
    ((forall j, (j < 3)%nat -> rate_limited (api (posts w + j)%nat p)) ->
     (forall email,
        try_body lower (api (posts w + 3)%nat p) = Ok email ->
        fst run = Some email /\
        sleeps (snd run) = sleeps w ++ [1; 2; 4] /\
        posts (snd run) = (posts w + 4)%nat) /\
     (rate_limited (api (posts w + 3)%nat p) ->
        fst run = None /\
        sleeps (snd run) = sleeps w ++ [1; 2; 4] /\
        posts (snd run) = (posts w + 4)%nat)).
Proof.
  intros lower api jd rd w p run.
  destruct (generate_shape lower api jd rd w) as (k & Hk & E).
  fold run in E. split; [|split].
  - rewrite E. simpl. lia.
  - rewrite E. cbn [sent retried print posts sleeps].
    now replace (S (posts w + k) - posts w - 1)%nat with k by lia.
  - intros H. subst run.
    rewrite (generate_after_rate_limits lower api jd rd w 3 1 H eq_refl) by lia.
    cbn [seq map]. split.
    + intros email Ok3. erewrite retry_loop_success; [now simpl | exact Ok3].
    + intros R. rewrite retry_loop_exhausted; [now simpl | exact R | simpl; lia].
Qed.

Lemma rate_limit_backoff_witness :
  let run := generate_application_email lower_latin1
               (rate_limited_then 3 (ok_response (lit "Hello")))
               (lit "job") (lit "resume") start in
  fst run = Some (lit "Hello" ++ nl ++ nl ++ CLOSING_BLOCK) /\
  sleeps (snd run) = [1; 2; 4] /\ posts (snd run) = 4%nat.
Proof.
  destruct (rate_limit_backoff lower_latin1
              (rate_limited_then 3 (ok_response (lit "Hello")))
              (lit "job") (lit "resume") start) as (_ & _ & H).
  refine (proj1 (H _) _ _).
  - intros j Hj. exists None. unfold rate_limited_then.
    destruct (Nat.ltb_spec (posts start + j) 3) as [_|F]; [reflexivity|].
    simpl in F. lia.
  - vm_compute. reflexivity.
Defined.

(** C3 as stated fails: the sign-off written before the stop phrase is cut
    away as well, so the body is shorter than the trimmed text before the
    stop phrase. *)
Lemma stop_marker_body_counterexample :
  first_occurrence stop_phrase signed_before_marker 51 /\
  strip (firstn 51 signed_before_marker) = lit "Dear team,

I fit the role.

Best regards,
Abhinav" /\
  sanitized_body lower_latin1 signed_before_marker = lit "Dear team,

I fit the role." /\
  sanitized_body lower_latin1 signed_before_marker
    <> strip (firstn 51 signed_before_marker).
Proof.
  split; [now apply find_nat_iff|].
  split; [vm_compute; reflexivity|].
  split; [vm_compute; reflexivity|].
  vm_compute. discriminate.
Qed.

(** C3, as the code has it.  When the text holds the stop phrase, the
    later steps run on what precedes its first occurrence, trimmed; the
    sanitized body is that trimmed text whenever no closing phrase cuts it
    and no "@" is among its last 100 characters; and the stop phrase
    occurs nowhere in the final email. *)
Theorem stop_phrase_is_cut_away :
  forall lower raw,
    occurs stop_phrase raw ->
    exists i,
      first_occurrence stop_phrase raw i /\
      let before := strip (firstn i raw) in
      sanitized_body lower raw
        = contact_cleanup (secondary_cleanup lower before) /\
      ((forall c j, In c common_closings ->
                    occurs_at (lower c) (lower before) j ->
                    200 <= len before - Z.of_nat j) ->
       ~ at_sign_near_end before ->
       sanitized_body lower raw = before) /\
      ~ occurs stop_phrase (post_process lower raw).
Proof.
  intros lower raw H. destruct (occurs_first _ _ H) as [i Hi].
  exists i. split; [exact Hi|]. intros before.
  assert (E : primary_cleanup raw = before) by now apply primary_cleanup_present.
  assert (N : ~ occurs stop_phrase before).
  { intros F. apply (not_before_first stop_phrase raw i); [discriminate|exact Hi|].
    eapply occurs_trans; [exact F | apply occurs_strip]. }
  unfold post_process, sanitized_body. rewrite E. split; [reflexivity|]. split.
  - intros Hfar Hat. unfold secondary_cleanup.
    rewrite closing_loop_skip by now apply far_occurrences_do_not_cut.
    now apply contact_cleanup_far.
  - apply stop_phrase_not_appended. intros F. apply N.
    eapply occurs_trans; [exact F|].
    eapply occurs_trans; [apply contact_cleanup_occurs | apply closing_loop_occurs].
Qed.

Lemma stop_phrase_is_cut_away_witness :
  sanitized_body lower_latin1 marker_then_sign_off = lit "Dear team,

I fit the role." /\
  ~ occurs stop_phrase (post_process lower_latin1 marker_then_sign_off).
Proof.
  destruct (stop_phrase_is_cut_away lower_latin1 marker_then_sign_off)
    as (i & Hi & _ & Hbody & Hstop).
  - apply contains_iff. vm_compute. reflexivity.
  - assert (i = 28%nat) as ->.
    { apply find_nat_iff in Hi. vm_compute in Hi. congruence. }
    split; [|exact Hstop]. apply Hbody.
    + far_from_closings.
    + intros F. apply at_sign_test in F. vm_compute in F. discriminate.
Defined.

(** The stop phrase wins over everything after it, and the email that
    comes back carries four newlines between body and availability line:
    two from the separator, two from the closing block. *)
Example marker_run :
  fst (generate_application_email lower_latin1
         (always (ok_response marker_then_sign_off))
         (lit "job") (lit "resume") start)
  = Some (lit "Dear team,

I fit the role.



I am available to join immediately, as I have completed all my academic coursework.

Best regards,
Abhinav Prasad
Email: abhinavprasad2004ap@gmail.com
Phone: 8989625663
LinkedIn: https://www.linkedin.com/in/abhinav-prasad-0a894b251/
GitHub: https://github.com/Abhii242004").
Proof. vm_compute. reflexivity. Qed.

(** C4 as stated fails: nothing trims a text that no step cuts. *)
Lemma untrimmed_counterexample :
  ~ occurs stop_phrase trailing_newline /\
  (forall c i, In c common_closings ->
               occurs_at (lower_latin1 c) (lower_latin1 trailing_newline) i ->
               200 <= len trailing_newline - Z.of_nat i) /\
  ~ at_sign_near_end trailing_newline /\
  sanitized_body lower_latin1 trailing_newline = trailing_newline /\
  sanitized_body lower_latin1 trailing_newline <> strip trailing_newline.
Proof.
  split; [|split; [|split]].
  - apply contains_false_iff. vm_compute. reflexivity.
  - far_from_closings.
  - intros F. apply at_sign_test in F. vm_compute in F. discriminate.
  - split; vm_compute; [reflexivity | discriminate].
Qed.

(** C4, as the code has it by design.  Take a text on which [lower]
    works character by character.  When it holds no stop phrase, no
    closing phrase found, case ignored, less than 200 characters before
    its end, and no "@" in its last 100 characters, it goes through
    unchanged, untrimmed, and is followed by the separator and the closing
    block. *)
Theorem text_without_sign_off_is_kept :
  forall lower raw,
    charwise lower raw ->
    ~ occurs stop_phrase raw ->
    (forall c i, In c common_closings ->
                 matches_at lower c raw i ->
                 200 <= len raw - Z.of_nat i) ->
    ~ at_sign_near_end raw ->
    sanitized_body lower raw = raw /\
    post_process lower raw = raw ++ [10%N; 10%N] ++ CLOSING_BLOCK.
Proof.
  intros lower raw Hchar Hstop Hfar Hat.
  apply uncut_text_is_kept; [exact Hstop | | exact Hat].
  intros c i Hc Hocc. apply (Hfar c i Hc).
  now apply charwise_match.
Qed.

Lemma text_without_sign_off_is_kept_witness :
  sanitized_body lower_dotted plain_text = plain_text /\
  post_process lower_dotted plain_text
    = plain_text ++ [10%N; 10%N] ++ CLOSING_BLOCK.
Proof.
  apply (text_without_sign_off_is_kept lower_dotted plain_text).
  - apply charwise_lower_dotted. vm_compute. reflexivity.
  - apply contains_false_iff. vm_compute. reflexivity.
  - intros c i Hc Hm. exfalso.
    assert (O : occurs (lower_dotted c) (lower_dotted plain_text)).
    { exists i. apply charwise_match_back; [|exact Hm].
      apply charwise_lower_dotted. vm_compute. reflexivity. }
    apply contains_iff in O.
    repeat (destruct Hc as [<-|Hc]; [vm_compute in O; discriminate|]).
    destruct Hc.
  - intros F. apply at_sign_test in F. vm_compute in F. discriminate.
Defined.

(** C5.  Post-processing appends two newline characters to the sanitized
    body and then [CLOSING_BLOCK], and every email the call returns is
    built this way from a non-empty model text.  The block holds the
    availability line, "Best regards,", the name and the contact lines, in
    this order. *)
Theorem separator_then_closing_block :
  forall lower,
    (forall raw,
        post_process lower raw
          = sanitized_body lower raw ++ [10%N; 10%N] ++ CLOSING_BLOCK) /\
    (forall api job_description resume_data w final w',
        generate_application_email lower api job_description resume_data w
          = (Some final, w') ->
        exists raw,
          raw <> [] /\
          final = sanitized_body lower raw ++ [10%N; 10%N] ++ CLOSING_BLOCK) /\
    CLOSING_BLOCK = lit "

I am available to join immediately, as I have completed all my academic coursework.

Best regards,
Abhinav Prasad
Email: abhinavprasad2004ap@gmail.com
Phone: 8989625663
LinkedIn: https://www.linkedin.com/in/abhinav-prasad-0a894b251/
GitHub: https://github.com/Abhii242004".
Proof.
  intros lower.
  assert (P : forall raw, post_process lower raw
                = sanitized_body lower raw ++ [10%N; 10%N] ++ CLOSING_BLOCK).
  { intros raw. unfold post_process. now rewrite <- app_assoc. }
  split; [exact P|]. split; [|reflexivity].
  intros api jd rd w final w' H. unfold generate_application_email in H.
  apply retry_loop_Some in H. destruct H as (raw & Hraw & ->).
  exists raw. split; [exact Hraw | apply P].
Qed.

Lemma separator_then_closing_block_witness :
  exists raw,
    raw <> [] /\
    lit "Hello" ++ nl ++ nl ++ CLOSING_BLOCK
      = sanitized_body lower_latin1 raw ++ [10%N; 10%N] ++ CLOSING_BLOCK.
Proof.
  apply (proj1 (proj2 (separator_then_closing_block lower_latin1))
           (always (ok_response (lit "Hello"))) (lit "job") (lit "resume")
           start _
           (sent (print (lit "Connecting to llama-3.3-70b-versatile API and drafting email...") start))).
  vm_compute. reflexivity.
Defined.

(** C6.  The index slip of lines 111-113: the position of the match is
    found in the lowered copy and used in the text itself.  Lower-casing
    U+0130 gives two code points, so after three of them the position is
    three too far.  The phrase starts at 11 in the text, and everything
    before it, trimmed, ends with "Hello."; the code finds 14, cuts there,
    and "Sin" of the sign-off stays in the body. *)
Theorem secondary_cut_index_slip :
  last_occurrence (lit "Sincerely,") dotted_sign_off 11 /\
  strip (firstn 11 dotted_sign_off) = repeat 304%N 3 ++ lit " Hello." /\
  rfind (lower_dotted dotted_sign_off) (lower_dotted (lit "Sincerely,")) = 14 /\
  secondary_cleanup lower_dotted dotted_sign_off
    = repeat 304%N 3 ++ lit " Hello. Sin" /\
  sanitized_body lower_dotted dotted_sign_off
    = repeat 304%N 3 ++ lit " Hello. Sin".
Proof.
  split; [apply rfind_nat_iff; vm_compute; reflexivity|].
  repeat split; vm_compute; reflexivity.
Qed.

(** The specification's example: a sign-off, a name and an address at the
    end of the text are all removed. *)
Example trailing_sign_off_removed :
  sanitized_body lower_latin1 signed_with_contact = plain_text.
Proof. vm_compute. reflexivity. Qed.

(** The 200-character window is strict: a phrase that starts 199
    characters before the end cuts, one that starts 200 before does not. *)
Example closing_window_is_strict :
  secondary_cleanup lower_latin1
    (lit "Done. Sincerely," ++ repeat 120%N 189) = lit "Done." /\
  secondary_cleanup lower_latin1
    (lit "Done. Sincerely," ++ repeat 120%N 190)
    = lit "Done. Sincerely," ++ repeat 120%N 190.
Proof. split; vm_compute; reflexivity. Qed.

(** C7.  The contact-block step acts only when an "@" is among the last
    100 characters.  It then looks at the last pair of consecutive
    newlines: when there is one and the text after it holds an "@" or a
    "+", the text before it is kept, trimmed; in every other case the text
    is unchanged. *)
Theorem contact_block_heuristic :
  forall text,
    (~ at_sign_near_end text -> contact_cleanup text = text) /\
    (at_sign_near_end text ->
     (~ occurs [10%N; 10%N] text -> contact_cleanup text = text) /\
     (forall i,
         last_occurrence [10%N; 10%N] text i ->
         let second := skipn (i + 2) text in
         (In 64%N second \/ In 43%N second ->
          contact_cleanup text = strip (firstn i text)) /\
         (~ (In 64%N second \/ In 43%N second) ->
          contact_cleanup text = text))).
Proof.
  intros text. split; [apply contact_cleanup_far|]. intros Hat. split.
  - apply contact_cleanup_one_block.
  - intros i Hi second.
    rewrite (contact_cleanup_split text i Hat Hi). fold second.
    change (lit "@") with [64%N]. change (lit "+") with [43%N].
    destruct (contains [64%N] second || contains [43%N] second) eqn:T.
    + split; [reflexivity|]. intros N. elim N.
      apply orb_true_iff in T. now rewrite !contains_char in T.
    + split; [|reflexivity]. intros P.
      rewrite <- !contains_char, <- orb_true_iff in P. congruence.
Qed.

Lemma contact_block_heuristic_witness :
  contact_cleanup contact_paragraph = lit "I fit the role." /\
  contact_cleanup plain_text = plain_text.
Proof.
  split.
  - destruct (contact_block_heuristic contact_paragraph) as [_ H].
    destruct H as [_ H]; [apply at_sign_test; vm_compute; reflexivity|].
    destruct (H 15%nat) as [Hcut _];
      [apply rfind_nat_iff; vm_compute; reflexivity|].
    apply Hcut. left. apply contains_char. vm_compute. reflexivity.
  - apply (proj1 (contact_block_heuristic plain_text)).
    intros F. apply at_sign_test in F. vm_compute in F. discriminate.
Defined.

(** C8.  Every attempt is a success, a rate limit or a terminal failure
    (an HTTP error status other than 429, no response, malformed JSON,
    missing or empty content), so nothing escapes the two handlers.  A
    terminal failure on attempt [k], the first included, makes the call
    return [None] at once: no further request and no further sleep. *)
Theorem terminal_failures_return_none :
  forall lower api job_description resume_data w,
    let p := payload job_description resume_data in
    (forall x,
        (exists email, try_body lower x = Ok email) \/
        rate_limited x \/ terminal_failure x) /\
    (forall k,
        (k < 4)%nat ->
        (forall j, (j < k)%nat -> rate_limited (api (posts w + j)%nat p)) ->
        terminal_failure (api (posts w + k)%nat p) ->
        exists w',
          generate_application_email lower api job_description resume_data w
            = (None, w') /\
          posts w' = (posts w + k + 1)%nat /\
          sleeps w' = sleeps w ++ backoff 1 k).
Proof.
  intros lower api jd rd w p. split; [apply exchange_cases|].
  intros k Hk H T.
  rewrite (generate_after_rate_limits lower api jd rd w k (4 - k) H) by lia.
  destruct (4 - k)%nat as [|m] eqn:Em; [lia|]. cbn [seq map].
  rewrite retry_loop_failure by exact T.
  eexists. split; [reflexivity|]. simpl. split; [lia | reflexivity].
Qed.

Lemma terminal_failures_return_none_witness :
  exists w',
    generate_application_email lower_latin1 (always (Response 500 None))
      (lit "job") (lit "resume") start = (None, w') /\
    posts w' = 1%nat /\ sleeps w' = [].
Proof.
  apply (proj2 (terminal_failures_return_none lower_latin1
                  (always (Response 500 None)) (lit "job") (lit "resume") start)
               O).
  - lia.
  - intros j Hj. lia.
  - apply Fail_status; [lia | discriminate].
Defined.

(** Empty content is a failure, not an email. *)
Example empty_content_run :
  generate_application_email lower_latin1 (always (ok_response []))
    (lit "job") (lit "resume") start
  = (None, sent (print (lit "Connecting to llama-3.3-70b-versatile API and drafting email...") start)).
Proof. vm_compute. reflexivity. Qed.



(** C10.  The sanitized body is a contiguous piece of the model's text:
    the cleanup steps only cut and trim. *)
Theorem sanitized_body_is_substring :
  forall lower raw,
    exists pre post, raw = pre ++ sanitized_body lower raw ++ post.
Proof.
  intros lower raw.
  destruct (sanitized_body_occurs lower raw) as (i & pre & post & E & _).
  now exists pre, post.
Qed.

(** * Further properties of the post-processing *)

Lemma strip_trimmed s : trimmed (strip s).
Proof.
  destruct (strip_spec s) as (ws1 & ws2 & _ & _ & _ & Hhead & Hlast).
  now split.
Qed.

Lemma primary_cleanup_no_stop_phrase raw :
  ~ occurs stop_phrase (primary_cleanup raw).
Proof.
  destruct (contains stop_phrase raw) eqn:E.
  - apply contains_iff in E. destruct (occurs_first _ _ E) as [i Hi].
    rewrite (primary_cleanup_present _ _ Hi). intros F.
    apply (not_before_first stop_phrase raw i); [discriminate | exact Hi|].
    eapply occurs_trans; [exact F | apply occurs_strip].
  - apply contains_false_iff in E. now rewrite primary_cleanup_absent.
Qed.

Lemma post_process_no_stop_phrase lower raw :
  ~ occurs stop_phrase (post_process lower raw).
Proof.
  apply stop_phrase_not_appended. intros F.
  apply (primary_cleanup_no_stop_phrase raw).
  eapply occurs_trans; [exact F|]. unfold sanitized_body, secondary_cleanup.
  eapply occurs_trans; [apply contact_cleanup_occurs | apply closing_loop_occurs].
Qed.

(** X1.  Whatever the model wrote, with or without the stop phrase, the
    stop phrase occurs nowhere in the post-processed email, so it can
    never reach the email a call returns. *)
Theorem stop_phrase_never_in_final_email :
  forall lower,
    (forall raw, ~ occurs stop_phrase (post_process lower raw)) /\
    (forall api job_description resume_data w,
        match fst (generate_application_email lower api job_description
                     resume_data w) with
        | Some email => ~ occurs stop_phrase email
        | None => True
        end).
Proof.
  intros lower. split; [apply post_process_no_stop_phrase|].
  intros api jd rd w.
  destruct (generate_application_email _ _ _ _ _) as [[email|] w'] eqn:E;
    [|exact I].
  unfold generate_application_email in E. apply retry_loop_Some in E.
  destruct E as (raw & _ & ->). apply post_process_no_stop_phrase.
Qed.

Lemma primary_cleanup_same_or_trimmed raw :
  primary_cleanup raw = raw \/ trimmed (primary_cleanup raw).
Proof.
  unfold primary_cleanup. destruct (contains stop_phrase raw);
    [right; apply strip_trimmed | now left].
Qed.

Lemma closing_loop_same_or_trimmed lower closings text :
  closing_loop lower closings text = text \/
  trimmed (closing_loop lower closings text).
Proof.
  induction closings as [|c rest IH]; simpl; [now left|].
  destruct (negb _ && _); [right; apply strip_trimmed | exact IH].
Qed.

Lemma contact_cleanup_same_or_trimmed text :
  contact_cleanup text = text \/ trimmed (contact_cleanup text).
Proof.
  unfold contact_cleanup.
  destruct (contains _ (slice_from _ _)); [|now left].
  destruct (_ && _); [right; apply strip_trimmed | now left].
Qed.

(** X2.  The sanitized body is either the model's text exactly as it came
    or a text without white space at either end: every step that cuts
    also trims, and a step that does not cut changes nothing. *)
Theorem sanitized_body_same_or_trimmed :
  forall lower raw,
    sanitized_body lower raw = raw \/ trimmed (sanitized_body lower raw).
Proof.
  intros lower raw. unfold sanitized_body, secondary_cleanup.
  destruct (contact_cleanup_same_or_trimmed
              (closing_loop lower common_closings (primary_cleanup raw)))
    as [-> | T]; [|now right].
  destruct (closing_loop_same_or_trimmed lower common_closings
              (primary_cleanup raw)) as [-> | T]; [|now right].
  apply primary_cleanup_same_or_trimmed.
Qed.

(** X3.  What follows the first stop phrase has no effect: two texts that
    agree up to their first stop phrase give the same email. *)
Theorem text_after_stop_phrase_is_ignored :
  forall lower raw raw' i,
    first_occurrence stop_phrase raw i ->
    first_occurrence stop_phrase raw' i ->
    firstn i raw = firstn i raw' ->
    post_process lower raw = post_process lower raw'.
Proof.
  intros lower raw raw' i H H' E. unfold post_process, sanitized_body.
  now rewrite (primary_cleanup_present _ _ H), (primary_cleanup_present _ _ H'), E.
Qed.

Lemma text_after_stop_phrase_is_ignored_witness :
  post_process lower_latin1 marker_then_sign_off
    = post_process lower_latin1 marker_at_end.
Proof.
  apply (text_after_stop_phrase_is_ignored lower_latin1
           marker_then_sign_off marker_at_end 28).
  - apply find_nat_iff. vm_compute. reflexivity.
  - apply find_nat_iff. vm_compute. reflexivity.
  - vm_compute. reflexivity.
Defined.

(** * Further properties of the call *)

Lemma retry_loop_outcome lower api p m : forall i last_delay w r w',
  (i + m = 4)%nat -> (0 < m)%nat ->
  retry_loop lower api p (map Z.of_nat (seq i m)) last_delay w = (r, w') ->
  exists k,
    (k < m)%nat /\
    (forall j, (j < k)%nat -> rate_limited (api (posts w + j)%nat p)) /\
    w' = sent (retried last_delay k w) /\
    ends_call lower (api (posts w + k)%nat p) (i + k) r.
Proof.
  induction m as [|m IH]; intros i last_delay w r w' Him Hm; [lia|].
  cbn [seq map].
  assert (W0 : sent w = sent (retried last_delay 0 w)).
  { unfold retried, sent; simpl. now rewrite Nat.add_0_r, app_nil_r. }
  destruct (exchange_cases lower (api (posts w) p)) as [[email E]|[E|E]].
  - rewrite (retry_loop_success _ _ _ _ _ _ _ _ E). intros [= <- <-].
    exists O. rewrite !Nat.add_0_r. repeat split; [lia | intros; lia | exact W0|].
    left. now exists email.
  - destruct (Z.lt_ge_cases (Z.of_nat i) 3) as [Hi|Hi].
    + rewrite retry_loop_again by assumption. intros R.
      apply IH in R; [|lia|lia]. destruct R as (k & Hk & Hrl & -> & Hend).
      exists (S k). split; [lia|]. split; [|split].
      * intros [|j] Hj; [now rewrite Nat.add_0_r|].
        replace (posts w + S j)%nat with (S (posts w) + j)%nat by lia.
        apply Hrl. lia.
      * unfold retried, sent; simpl. f_equal; [lia | now rewrite <- app_assoc].
      * replace (posts w + S k)%nat with (S (posts w) + k)%nat by lia.
        now replace (i + S k)%nat with (S i + k)%nat by lia.
    + rewrite retry_loop_exhausted by assumption. intros [= <- <-].
      exists O. rewrite !Nat.add_0_r. repeat split; [lia | intros; lia | exact W0|].
      right. right. repeat split; [exact E | lia].
  - rewrite retry_loop_failure by assumption. intros [= <- <-].
    exists O. rewrite !Nat.add_0_r. repeat split; [lia | intros; lia | exact W0|].
    right. now left.
Qed.

(** X4.  Every call goes the same way: some number [k] of rate-limited
    attempts, fewer than four, then one attempt that ends it, with the
    email of that attempt, or with [None] because that attempt failed for
    good or was the fourth and rate-limited as well. *)
Theorem call_outcome :
  forall lower api job_description resume_data w,
    let p := payload job_description resume_data in
    let run := generate_application_email lower api job_description resume_data w in
    exists k,
      (k < 4)%nat /\
      (forall j, (j < k)%nat -> rate_limited (api (posts w + j)%nat p)) /\
      ends_call lower (api (posts w + k)%nat p) k (fst run) /\
      posts (snd run) = (posts w + k + 1)%nat /\
      sleeps (snd run) = sleeps w ++ backoff 1 k.
Proof.
  intros lower api jd rd w p run. subst run. unfold generate_application_email.
  destruct (retry_loop _ _ _ _ _ _) as [r w'] eqn:E.
  change (range max_retries) with (map Z.of_nat (seq 0 4)) in E.
  apply retry_loop_outcome in E; [|reflexivity|lia].
  destruct E as (k & Hk & Hrl & -> & Hend).
  exists k. simpl in *. repeat split; try assumption. lia.
Qed.

(** X5.  Whether it returns an email or [None], the call prints exactly
    one line, the one that announces the connection: no error detail ever
    reaches the console. *)
Theorem call_prints_one_line :
  forall lower api job_description resume_data w,
    stdout (snd (generate_application_email lower api job_description
                   resume_data w))
    = stdout w ++ [connecting_line].
Proof.
  intros lower api jd rd w.
  destruct (generate_shape lower api jd rd w) as (k & _ & ->). reflexivity.
Qed.

(** X6.  A call sleeps at most three times, 7 seconds in all. *)
Theorem call_sleeps_at_most_seven_seconds :
  forall lower api job_description resume_data w,
    exists delays,
      sleeps (snd (generate_application_email lower api job_description
                     resume_data w))
      = sleeps w ++ delays /\
      (length delays <= 3)%nat /\ total delays <= 7.
Proof.
  intros lower api jd rd w.
  destruct (generate_shape lower api jd rd w) as (k & Hk & ->).
  exists (backoff 1 k). split; [reflexivity|].
  destruct k as [|[|[|[|k]]]]; simpl; try lia.
  all: split; [lia | unfold total; simpl; lia].
Qed.

(** X7.  An attempt that succeeds after [k] rate limits, for any [k] below
    four, returns its email after [k + 1] requests and [k] sleeps. *)
Theorem success_after_rate_limits :
  forall lower api job_description resume_data w k email,
    let p := payload job_description resume_data in
    (k < 4)%nat ->
    (forall j, (j < k)%nat -> rate_limited (api (posts w + j)%nat p)) ->
    try_body lower (api (posts w + k)%nat p) = Ok email ->
    exists w',
      generate_application_email lower api job_description resume_data w
        = (Some email, w') /\
      posts w' = (posts w + k + 1)%nat /\
      sleeps w' = sleeps w ++ backoff 1 k.
Proof.
  intros lower api jd rd w k email p Hk H T.
  rewrite (generate_after_rate_limits lower api jd rd w k (4 - k) H) by lia.
  destruct (4 - k)%nat as [|m] eqn:Em; [lia|]. cbn [seq map].
  erewrite retry_loop_success; [|exact T].
  eexists. split; [reflexivity|]. simpl. split; [lia | reflexivity].
Qed.

Lemma success_after_rate_limits_witness :
  exists w',
    generate_application_email lower_latin1
      (rate_limited_then 1 (ok_response (lit "Hello")))
      (lit "job") (lit "resume") start
      = (Some (lit "Hello" ++ nl ++ nl ++ CLOSING_BLOCK), w') /\
    posts w' = 2%nat /\ sleeps w' = [1].
Proof.
  apply (success_after_rate_limits lower_latin1
           (rate_limited_then 1 (ok_response (lit "Hello")))
           (lit "job") (lit "resume") start 1).
  - lia.
  - intros j Hj. exists None. destruct j; [reflexivity | lia].
  - vm_compute. reflexivity.
Defined.

Lemma retry_loop_agree lower api api' p attempts : forall last_delay w,
  (forall j, (j < length attempts)%nat ->
             api (posts w + j)%nat p = api' (posts w + j)%nat p) ->
  retry_loop lower api p attempts last_delay w
  = retry_loop lower api' p attempts last_delay w.
Proof.
  induction attempts as [|i rest IH]; intros last_delay w H; [reflexivity|].
  assert (E0 : api (posts w) p = api' (posts w) p).
  { pose proof (H O) as E0. rewrite Nat.add_0_r in E0. apply E0. simpl. lia. }
  simpl. rewrite <- E0.
  destruct (try_body lower (api (posts w) p)) as [email|[c| | | | | | |]];
    try reflexivity.
  destruct (_ && _); [|reflexivity]. apply IH. intros j Hj. simpl.
  replace (S (posts w + j)) with (posts w + S j)%nat by lia.
  apply H. simpl. lia.
Qed.

(** X8.  A call looks at no more than the answers to its own four
    requests, all made with the one payload built from its arguments: two
    servers that agree on these give the same run. *)
Theorem call_reads_four_answers_to_one_payload :
  forall lower api api' job_description resume_data w,
    (forall j, (j < 4)%nat ->
       api (posts w + j)%nat (payload job_description resume_data)
       = api' (posts w + j)%nat (payload job_description resume_data)) ->
    generate_application_email lower api job_description resume_data w
    = generate_application_email lower api' job_description resume_data w.
Proof.
  intros lower api api' jd rd w H. unfold generate_application_email.
  apply retry_loop_agree. exact H.
Qed.

Lemma call_reads_four_answers_to_one_payload_witness :
  generate_application_email lower_latin1
    (rate_limited_then 4 (ok_response (lit "Hello")))
    (lit "job") (lit "resume") start
  = generate_application_email lower_latin1 (always (Response 429 None))
      (lit "job") (lit "resume") start.
Proof.
  apply (call_reads_four_answers_to_one_payload lower_latin1
           (rate_limited_then 4 (ok_response (lit "Hello")))
           (always (Response 429 None)) (lit "job") (lit "resume") start).
  intros j Hj. unfold rate_limited_then, always.
  destruct (Nat.ltb_spec (posts start + j) 4) as [_|F]; [reflexivity|].
  simpl in F. lia.
Defined.

(** X9.  A response whose JSON object has no "choices", whose first choice
    has no "message", or whose message has no "content" counts as empty
    content: the defaults of the three lookups lead to [None], and the
    attempt raises [ValueError], not [KeyError]. *)
Theorem missing_keys_mean_empty_content :
  forall lower status_code fields,
    ~ 400 <= status_code < 600 ->
    lookup (lit "choices") fields = None \/
    (exists first rest,
        lookup (lit "choices") fields = Some (JArr (JObj first :: rest)) /\
        (lookup (lit "message") first = None \/
         exists message,
           lookup (lit "message") first = Some (JObj message) /\
           lookup (lit "content") message = None)) ->
    try_body lower (Response status_code (Some (JObj fields)))
    = Raise ValueError.
Proof.
  intros lower status_code fields Hs H. unfold try_body.
  rewrite (raise_for_status_ok _ Hs). simpl. unfold extract_content.
  destruct H as [E | (first & rest & E & [E1 | (message & E1 & E2)])];
    simpl; rewrite E; simpl.
  - reflexivity.
  - now rewrite E1.
  - rewrite E1. simpl. now rewrite E2.
Qed.

Lemma missing_keys_mean_empty_content_witness :
  try_body lower_latin1 (Response 200 (Some (JObj []))) = Raise ValueError.
Proof.
  apply (missing_keys_mean_empty_content lower_latin1 200 []).
  - lia.
  - left. reflexivity.
Defined.

(** X10.  The user message does not keep its two parts apart: text that
    repeats the heading between them can sit on either side of it, and
    the request is the same. *)
Theorem payload_does_not_separate_its_parts :
  forall x y z,
    payload (x ++ resume_heading ++ y) z = payload x (y ++ resume_heading ++ z).
Proof.
  intros x y z. unfold payload, user_query, resume_heading.
  do 4 f_equal. now repeat rewrite <- app_assoc.
Qed.

Lemma post_process_not_empty lower raw : post_process lower raw <> [].
Proof.
  unfold post_process. intros E. apply app_eq_nil in E. destruct E as [_ E].
  discriminate.
Qed.

(** * Further properties of the command line *)

(** With a console that takes every text, [main_on] is [main]. *)
Lemma main_on_any_text lower api argv fs w :
  main_on (fun _ => true) lower api argv fs w = main lower api argv fs w.
Proof. reflexivity. Qed.

(** X11.  With two arguments or more, both files there and neither empty
    once trimmed, on a console that can print the script's own lines, the
    script calls the generator on the trimmed texts and then: prints a
    notice and exits with status 0 when no draft comes back; prints the
    draft between banners and exits with status 0 when the console can
    print the draft; and stops at the draft, after the heading, with
    status 1 when it cannot. *)
Theorem valid_input_exit_status :
  forall accepts lower api argv fs w jd_text resume_text,
    (3 <= length argv)%nat ->
    fs (nth 1 argv []) = Some jd_text ->
    fs (nth 2 argv []) = Some resume_text ->
    strip jd_text <> [] ->
    strip resume_text <> [] ->
    Forall (fun line => accepts line = true) fixed_lines ->
    let run :=
      generate_application_email lower api (strip jd_text) (strip resume_text)
        (print (nl ++ lit "--- Starting Personalized Email Generation ---") w) in
    let out := main_on accepts lower api argv fs w in
    posts (snd out) = posts (snd run) /\
    sleeps (snd out) = sleeps (snd run) /\
    match fst run with
    | None =>
        fst out = 0 /\
        stdout (snd out) = stdout (snd run) ++
          [nl ++ lit "Could not generate the email draft. Check the console for error details."]
    | Some email =>
        if accepts email
        then fst out = 0 /\
             stdout (snd out) = stdout (snd run) ++
               [nl ++ banner; lit "PERSONALIZED APPLICATION EMAIL DRAFT";
                banner; email; nl ++ banner]
        else fst out = 1 /\
             stdout (snd out) = stdout (snd run) ++
               [nl ++ banner; lit "PERSONALIZED APPLICATION EMAIL DRAFT";
                banner]
    end.
Proof.
  intros accepts lower api argv fs w jd_text resume_text Hlen Ejd Ers Hjd Hrs
         Hfixed run out.
  rewrite Forall_forall in Hfixed.
  assert (A1 := Hfixed _ (or_introl eq_refl)).
  assert (A2 := Hfixed _ (or_intror (or_introl eq_refl))).
  assert (A3 := Hfixed _ (or_intror (or_intror (or_introl eq_refl)))).
  assert (A4 := Hfixed _ (or_intror (or_intror (or_intror (or_introl eq_refl))))).
  assert (A5 := Hfixed _ (or_intror (or_intror (or_intror (or_intror
                            (or_introl eq_refl)))))).
  assert (A6 := Hfixed _ (or_intror (or_intror (or_intror (or_intror
                            (or_intror (or_introl eq_refl))))))).
  assert (M : out =
    match fst run with
    | None =>
        (0, print (nl ++ lit "Could not generate the email draft. Check the console for error details.") (snd run))
    | Some email =>
        if accepts email
        then (0, print (nl ++ banner) (print email (print banner
                (print (lit "PERSONALIZED APPLICATION EMAIL DRAFT")
                   (print (nl ++ banner) (snd run))))))
        else (1, print banner
                (print (lit "PERSONALIZED APPLICATION EMAIL DRAFT")
                   (print (nl ++ banner) (snd run))))
    end).
  { subst out. unfold main_on, printing.
    apply Nat.ltb_ge in Hlen. rewrite Hlen, Ejd, Ers.
    destruct (str_eqb (strip jd_text) []) eqn:E1;
      [apply str_eqb_nil in E1; contradiction|].
    destruct (str_eqb (strip resume_text) []) eqn:E2;
      [apply str_eqb_nil in E2; contradiction|].
    cbn [orb]. rewrite A1, A2, A3, A4, A5, A6. subst run.
    destruct (generate_application_email _ _ _ _ _) as [[email|] w1] eqn:R;
      [|reflexivity].
    destruct email as [|c email]; [|reflexivity].
    exfalso. unfold generate_application_email in R.
    apply retry_loop_Some in R. destruct R as (raw & _ & R).
    symmetry in R. now apply post_process_not_empty in R. }
  rewrite M. destruct (fst run) as [email|].
  - destruct (accepts email); simpl; repeat split;
      now repeat rewrite <- app_assoc.
  - simpl. now repeat split.
Qed.

Lemma valid_input_exit_status_witness :
  let out := main_on utf8_console lower_latin1
               (always (ok_response (lit "Hello"))) sample_argv both_files
               start in
  posts (snd out) = 1%nat /\
  sleeps (snd out) = [] /\
  fst out = 0 /\
  stdout (snd out) =
    [nl ++ lit "--- Starting Personalized Email Generation ---";
     connecting_line] ++
    [nl ++ banner; lit "PERSONALIZED APPLICATION EMAIL DRAFT"; banner;
     lit "Hello" ++ nl ++ nl ++ CLOSING_BLOCK;
     nl ++ banner].
Proof.
  apply (valid_input_exit_status utf8_console lower_latin1
           (always (ok_response (lit "Hello"))) sample_argv both_files start
           (lit "Engineer wanted.
") (lit "  Five years of Rocq.")).
  - simpl. lia.
  - reflexivity.
  - reflexivity.
  - vm_compute. discriminate.
  - vm_compute. discriminate.
  - repeat constructor.
Defined.

(** A reply with a lone surrogate: the call returns a draft, the console
    cannot print it, and the script ends with status 1 after the heading. *)
Example unprintable_draft_run :
  let out := main_on utf8_console lower_latin1
               (always (ok_response (55357%N :: lit " Hello")))
               sample_argv both_files start in
  fst out = 1 /\
  stdout (snd out) =
    [nl ++ lit "--- Starting Personalized Email Generation ---";
     connecting_line;
     nl ++ banner; lit "PERSONALIZED APPLICATION EMAIL DRAFT"; banner].
Proof. vm_compute. split; reflexivity. Qed.

(** X12.  Only the trimmed texts of the two named files matter: white
    space around them, and every other file, has no effect on the run. *)
Theorem only_trimmed_files_matter :
  forall lower api argv fs fs' w,
    option_map strip (fs (nth 1 argv [])) = option_map strip (fs' (nth 1 argv [])) ->
    option_map strip (fs (nth 2 argv [])) = option_map strip (fs' (nth 2 argv [])) ->
    main lower api argv fs w = main lower api argv fs' w.
Proof.
  intros lower api argv fs fs' w H1 H2. unfold main.
  destruct (Nat.ltb _ 3); [reflexivity|].
  destruct (fs (nth 1 argv [])) as [t1|], (fs' (nth 1 argv [])) as [t1'|];
    try discriminate; [|reflexivity].
  destruct (fs (nth 2 argv [])) as [t2|], (fs' (nth 2 argv [])) as [t2'|];
    try discriminate; [|reflexivity].
  simpl in H1, H2. injection H1 as H1. injection H2 as H2.
  now rewrite H1, H2.
Qed.

Lemma only_trimmed_files_matter_witness :
  main lower_latin1 (always (ok_response (lit "Hello"))) sample_argv
    both_files start
  = main lower_latin1 (always (ok_response (lit "Hello"))) sample_argv
      (fun path => option_map strip (both_files path)) start.
Proof.
  apply (only_trimmed_files_matter lower_latin1
           (always (ok_response (lit "Hello"))) sample_argv both_files
           (fun path => option_map strip (both_files path)) start);
    vm_compute; reflexivity.
Defined.

(** * The closing block under the cleanup steps *)

Lemma occurs_at_app_right sub x y j :
  occurs_at sub (x ++ y) (length x + j) -> occurs_at sub y j.
Proof.
  induction x as [|c x IH]; simpl; [auto|].
  intros H. apply occurs_at_S in H. now apply IH.
Qed.

(** When the needle's last occurrence in [y] is at its start, its last
    occurrence in [x ++ y] is where [y] starts. *)
Lemma last_occurrence_at_seam sub x y :
  rfind_nat sub y = Some O -> last_occurrence sub (x ++ y) (length x).
Proof.
  intros E. apply rfind_nat_iff in E. destruct E as [E0 Emax]. split.
  - destruct E0 as (pre & post & -> & Hpre). destruct pre; [|discriminate].
    now exists x, post.
  - intros j Hj. destruct (Nat.le_gt_cases j (length x)) as [|Hgt]; [assumption|].
    replace j with (length x + (j - length x))%nat in Hj by lia.
    apply occurs_at_app_right, Emax in Hj. lia.
Qed.

Lemma lstrip_all_space ws : forallb isspace ws = true -> lstrip ws = [].
Proof.
  induction ws as [|c ws IH]; simpl; [reflexivity|].
  intros H. apply andb_true_iff in H. destruct H as [-> H]. now apply IH.
Qed.

Lemma lstrip_app_space ws s :
  forallb isspace ws = true -> lstrip (ws ++ s) = lstrip s.
Proof.
  induction ws as [|c ws IH]; simpl; [reflexivity|].
  intros H. apply andb_true_iff in H. destruct H as [-> H]. now apply IH.
Qed.

Lemma rstrip_app_space s ws :
  forallb isspace ws = true -> rstrip (s ++ ws) = rstrip s.
Proof.
  intros H. unfold rstrip. rewrite rev_app_distr, lstrip_app_space; [reflexivity|].
  rewrite forallb_forall in *. intros c Hc. apply H. now apply in_rev.
Qed.

(** White space after a text does not show in its trimmed form. *)
Lemma strip_app_space s ws :
  forallb isspace ws = true -> strip (s ++ ws) = strip s.
Proof.
  intros H. unfold strip. induction s as [|c s IH]; simpl.
  - now rewrite lstrip_all_space.
  - destruct (isspace c); [exact IH|].
    change (c :: s ++ ws) with ((c :: s) ++ ws). now apply rstrip_app_space.
Qed.

Lemma lstrip_app_text w m c r :
  m = c :: r -> isspace c = false -> lstrip (w ++ m) = lstrip w ++ m.
Proof.
  intros -> Hc. induction w as [|d w IH]; simpl; [now rewrite Hc|].
  now destruct (isspace d).
Qed.

Lemma rstrip_text s c : isspace c = false -> rstrip (s ++ [c]) = s ++ [c].
Proof.
  intros Hc. unfold rstrip. rewrite rev_app_distr. simpl. rewrite Hc.
  change (c :: rev s) with (rev [c] ++ rev s).
  now rewrite <- rev_app_distr, rev_involutive.
Qed.

(** A trimmed text followed by four newlines, or nothing at all. *)
Lemma lstrip_before_newlines body :
  lstrip (body ++ nl ++ nl ++ nl ++ nl) = [] \/
  exists y, lstrip (body ++ nl ++ nl ++ nl ++ nl) = y ++ nl ++ nl.
Proof.
  induction body as [|c body IH]; [now left|]. simpl.
  destruct (isspace c); [exact IH|]. right.
  exists (c :: body ++ nl ++ nl). simpl. now rewrite <- !app_assoc.
Qed.

Lemma map_ascii (f : N -> N) l :
  (forall c, (c < 128)%N -> f c = lower_cp c) ->
  forallb (fun c => c <? 128)%N l = true ->
  map f l = map lower_cp l.
Proof.
  intros Hf. induction l as [|c l IH]; simpl; [reflexivity|].
  intros H. apply andb_true_iff in H. destruct H as [Hc H].
  apply N.ltb_lt in Hc. now rewrite Hf, IH.
Qed.

(** The contact-block step leaves alone a text that ends with the
    availability line on a paragraph of its own. *)
Lemma contact_cleanup_availability body :
  let text := lstrip (body ++ nl ++ nl ++ nl ++ nl) ++ MANDATORY_CLOSING_LINE in
  contact_cleanup text = text.
Proof.
  intros text. subst text.
  destruct (lstrip_before_newlines body) as [-> | [y ->]]; [reflexivity|].
  rewrite <- !app_assoc.
  assert (L : rfind_nat (nl ++ nl) (y ++ nl ++ nl ++ MANDATORY_CLOSING_LINE)
              = Some (length y)).
  { apply rfind_nat_iff, last_occurrence_at_seam. vm_compute. reflexivity. }
  unfold contact_cleanup, rsplit1. rewrite L.
  destruct (contains _ (slice_from _ _)); [|reflexivity].
  cbn [nth]. rewrite skipn_app, skipn_all2 by (simpl; lia).
  replace (length y + length (nl ++ nl) - length y)%nat with 2%nat by (simpl; lia).
  reflexivity.
Qed.

(** X13.  Post-processing does not pass over its own output.  Where
    [lower] works character by character on the email that comes out, and
    lowers the closing block as Python lowers ASCII, that email put
    through the cleanup steps again is cut at the "Best regards," of the
    closing block: the body and the availability line are all that
    stays. *)
Theorem cleanup_cuts_the_closing_block :
  forall lower raw,
    charwise lower (post_process lower raw) ->
    lower CLOSING_BLOCK = lower_latin1 CLOSING_BLOCK ->
    sanitized_body lower (post_process lower raw)
    = strip (sanitized_body lower raw ++ nl ++ nl ++ nl ++ nl ++
             MANDATORY_CLOSING_LINE).
Proof.
  intros lower raw [f Hf] Hblock. set (body := sanitized_body lower raw).
  set (kept := body ++ nl ++ nl ++ nl ++ nl ++ MANDATORY_CLOSING_LINE).
  set (tail := skipn 87 CLOSING_BLOCK).
  assert (E : post_process lower raw = (kept ++ nl ++ nl) ++ tail).
  { unfold post_process. fold body. unfold kept.
    change CLOSING_BLOCK
      with (nl ++ nl ++ MANDATORY_CLOSING_LINE ++ nl ++ nl ++ tail).
    now rewrite <- !app_assoc. }
  assert (Hascii : forall c, In c CLOSING_BLOCK -> f c = lower_cp c).
  { apply map_ext_in_iff. rewrite <- Hf; [exact Hblock|].
    exists (length (sanitized_body lower raw ++ nl ++ nl)),
           (sanitized_body lower raw ++ nl ++ nl), [].
    unfold post_process. now rewrite app_nil_r. }
  assert (Etail : map f tail = map lower_cp tail).
  { apply map_ext_in. intros c Hc. apply Hascii.
    rewrite <- (firstn_skipn 87 CLOSING_BLOCK). apply in_or_app. now right. }
  assert (Ephrase : lower (lit "Best regards,")
                    = map lower_cp (lit "Best regards,")).
  { rewrite Hf.
    - apply map_ext_in. intros c Hc. apply Hascii.
      change CLOSING_BLOCK
        with (firstn 87 CLOSING_BLOCK ++ lit "Best regards," ++
              skipn 100 CLOSING_BLOCK).
      apply in_or_app. right. apply in_or_app. now left.
    - rewrite E. exists (length (kept ++ nl ++ nl)), (kept ++ nl ++ nl),
        (skipn 13 tail). split; [|reflexivity]. do 2 f_equal. }
  unfold sanitized_body at 1.
  rewrite primary_cleanup_absent by apply post_process_no_stop_phrase.
  unfold secondary_cleanup.
  change common_closings
    with ([] ++ lit "Best regards," :: tl common_closings).
  rewrite (closing_loop_cut lower [] (lit "Best regards,") _ _
             (length (kept ++ nl ++ nl))).
  - rewrite E.
    rewrite <- (Nat.add_0_r (length (kept ++ nl ++ nl))), firstn_app_2.
    simpl firstn. rewrite app_nil_r.
    rewrite strip_app_space by reflexivity.
    assert (S : strip kept
                = lstrip (body ++ nl ++ nl ++ nl ++ nl) ++ MANDATORY_CLOSING_LINE).
    { unfold kept, strip.
      replace (body ++ nl ++ nl ++ nl ++ nl ++ MANDATORY_CLOSING_LINE)
        with ((body ++ nl ++ nl ++ nl ++ nl) ++ MANDATORY_CLOSING_LINE)
        by now rewrite <- !app_assoc.
      rewrite (lstrip_app_text _ MANDATORY_CLOSING_LINE 73%N
                 (tl MANDATORY_CLOSING_LINE)) by reflexivity.
      change MANDATORY_CLOSING_LINE
        with (removelast MANDATORY_CLOSING_LINE ++ [46%N]) at 1.
      rewrite app_assoc, rstrip_text by reflexivity.
      now rewrite <- app_assoc. }
    rewrite S. apply contact_cleanup_availability.
  - intros c [].
  - split.
    + rewrite Ephrase, (Hf _ (occurs_refl _)), E, map_app, Etail.
      rewrite <- (length_map f (kept ++ nl ++ nl)).
      apply last_occurrence_at_seam. vm_compute. reflexivity.
    + rewrite E. unfold len. rewrite length_app.
      change (length tail) with 186%nat. lia.
Qed.

Lemma cleanup_cuts_the_closing_block_witness :
  sanitized_body lower_dotted (post_process lower_dotted (lit "Hello"))
  = lit "Hello



I am available to join immediately, as I have completed all my academic coursework.".
Proof.
  apply (cleanup_cuts_the_closing_block lower_dotted (lit "Hello")).
  - apply charwise_lower_dotted. vm_compute. reflexivity.
  - vm_compute. reflexivity.
Defined.
